(** * Terra::ProgramOptions — a shallow embedding of the option parser

    The development follows [src/parser.cpp] and
    [include/terra/program_options/program_options.h].  The [Parser] object
    is a record; member functions that mutate it or throw are computations
    in a small state-and-exception monad over that record, in which a throw
    keeps every write made before it (C++ exceptions do not roll back
    [option_map]).  Strings are Stdlib strings (sequences of 8-bit
    characters), [std::unordered_map] is a [gmap]. *)

From Stdlib Require Import ZArith Ascii String Lia.
From stdpp Require Import gmap strings list fin_maps.

(** String concatenation computes under [simpl] in this file. *)
#[local] Arguments String.append !_ _ / : simpl nomatch.

(** ** Error codes and the option specification *)

(** [enum class OptionsError]. *)
Inductive OptionsError : Type :=
| FlagConflict
| EmptyIdentifierName
| DuplicateIdentifier
| DuplicateShortOption
| DuplicateLongOption
| InvalidShortOption
| InvalidLongOption
| MultipleInstances
| MissingOptionArgument
| OptionNotGiven
| OptionValueError.

(** [struct Option]. *)
Record Option : Type := mkOption {
  name : string;
  short_option : string;
  long_option : string;
  multiple_allowed : bool;
  parameter_expected : bool
}.

(** [using Options = std::vector<Option>]. *)
Abbreviation Options := (list Option).

(** The data members of [class Parser]. *)
Record Parser : Type := mkParser {
  options : Options;
  short_flags : list string;
  long_flags : list string;
  option_value_separator : string;
  case_insensitive : bool;
  option_map : gmap string (list string)
}.

Definition with_option_map (m : gmap string (list string)) (p : Parser) : Parser :=
  mkParser (options p) (short_flags p) (long_flags p)
           (option_value_separator p) (case_insensitive p) m.

(** ** The monad of member functions *)

(** What a call can end in: a returned value, an [OptionsException] with
    its [options_error] code (the message text is not modelled), or
    undefined behaviour ([front()] of an empty vector). *)
Inductive result (A : Type) : Type :=
| Ok (a : A)
| Throw (e : OptionsError)
| Undefined.
Arguments Ok {A} a.
Arguments Throw {A} e.
Arguments Undefined {A}.

Definition M (A : Type) : Type := Parser -> result A * Parser.

Definition ret {A} (a : A) : M A := fun p => (Ok a, p).

Definition throw {A} (e : OptionsError) : M A := fun p => (Throw e, p).

Definition bind {A B} (m : M A) (f : A -> M B) : M B :=
  fun p =>
    match m p with
    | (Ok a, p') => f a p'
    | (Throw e, p') => (Throw e, p')
    | (Undefined, p') => (Undefined, p')
    end.

Definition gets {A} (f : Parser -> A) : M A := fun p => (Ok (f p), p).

Notation "'let*' x ':=' m 'in' k" := (bind m (fun x => k))
  (at level 10, x pattern, m at level 100, k at level 200).
Notation "m '>>' k" := (bind m (fun _ => k))
  (at level 90, right associativity).

(** ** String helpers *)

Definition empty (s : string) : bool :=
  match s with EmptyString => true | String _ _ => false end.

(** [std::toupper] in the default "C" locale: 'a'..'z' go to 'A'..'Z',
    every other byte is left as it is. *)
Definition toupper (c : ascii) : ascii :=
  let n := nat_of_ascii c in
  if (97 <=? n)%nat && (n <=? 122)%nat then ascii_of_nat (n - 32) else c.

(** [Parser::Uppercase]. *)
Fixpoint Uppercase (some_string : string) : string :=
  match some_string with
  | EmptyString => EmptyString
  | String c s => String (toupper c) (Uppercase s)
  end.

(** The [for (const auto c : prefix)] loop of [Parser::FindStringStart].
    The iterator pair (start, end) is the suffix [s] that remains to be
    read; the loop is entered with [s] non-empty and leaves as soon as the
    iterator reaches the end, so the [EmptyString] case of [s] is never
    taken.  The [unsigned] counter never exceeds the length of [prefix]
    and is a natural number here. *)
Fixpoint FindStringStart_loop (prefix s : string) (prefix_characters_matched : nat)
  : nat * string :=
  match prefix with
  | EmptyString => (prefix_characters_matched, s)
  | String c prefix' =>
      match s with
      | EmptyString => (prefix_characters_matched, s)
      | String x s' =>
          if Ascii.eqb c x then
            if empty s' then (S prefix_characters_matched, s')
            else FindStringStart_loop prefix' s' (S prefix_characters_matched)
          else (prefix_characters_matched, s)
      end
  end.

(** [Parser::FindStringStart]: the returned string is the updated
    [start_iterator]. *)
Definition FindStringStart (prefix s : string) : bool * string :=
  if empty s then (false, s)
  else
    let '(matched, rest) := FindStringStart_loop prefix s 0 in
    (Nat.eqb (String.length prefix) matched, rest).

(** The [for (const auto &flag : flags)] loop of [Parser::FindOptionStart]. *)
Fixpoint FindOptionStart_loop (flags : list string) (s : string) : option string :=
  match flags with
  | [] => None
  | flag :: flags' =>
      match FindStringStart flag s with
      | (true, rest) => Some rest
      | (false, _) => FindOptionStart_loop flags' s
      end
  end.

(** [Parser::FindOptionStart]: [Some rest] when a flag was found, [rest]
    being what follows it. *)
Definition FindOptionStart (flags : list string) (s : string) : option string :=
  if empty s then None else FindOptionStart_loop flags s.

(** ** The result store *)

(** [option_map[key].emplace_back(value)]: [operator[]] creates an empty
    vector for a new key. *)
Definition emplace_back (key value : string) (m : gmap string (list string))
  : gmap string (list string) :=
  <[key := default [] (m !! key) ++ [value]]> m.

Definition store (key value : string) : M unit :=
  fun p => (Ok tt, with_option_map (emplace_back key value (option_map p)) p).

(** [Parser::ClearOptions]. *)
Definition ClearOptions : M unit :=
  fun p => (Ok tt, with_option_map ∅ p).

(** [Parser::StoreOption]. *)
Definition StoreOption (opt : Option) (parameter : option string) : M bool :=
  fun p =>
    if bool_decide (is_Some (option_map p !! name opt))
       && negb (multiple_allowed opt)
    then throw MultipleInstances p
    else if negb (parameter_expected opt)
    then (store (name opt) "" >> ret false) p
    else
      match parameter with
      | None => throw MissingOptionArgument p
      | Some value => (store (name opt) value >> ret true) p
      end.

(** ** The token matcher *)

(** The [for (const auto c : option.long_option)] loop of
    [Parser::ProcessLongOption]; [span] plays [argument_end_iterator]
    and is non-empty on entry. *)
Fixpoint long_option_match (ci : bool) (long_name span : string)
  (option_characters_matched : nat) : nat * string :=
  match long_name with
  | EmptyString => (option_characters_matched, span)
  | String c long_name' =>
      match span with
      | EmptyString => (option_characters_matched, span)
      | String x span' =>
          if Ascii.eqb c x || (ci && Ascii.eqb (toupper c) (toupper x)) then
            if empty span' then (S option_characters_matched, span')
            else long_option_match ci long_name' span' (S option_characters_matched)
          else (option_characters_matched, span)
      end
  end.

(** The [for (const auto &option : options)] loop of
    [Parser::ProcessLongOption], returning
    [(matched_option, parameter_consumed)]. *)
Fixpoint ProcessLongOption_loop (opts : Options) (span : string)
  (parameter : option string) {struct opts} : M (bool * bool) :=
  match opts with
  | [] => ret (false, false)
  | opt :: opts' =>
      if empty (long_option opt) then ProcessLongOption_loop opts' span parameter
      else
        let* ci := gets case_insensitive in
        let '(option_characters_matched, argument_end) :=
          long_option_match ci (long_option opt) span 0 in
        if (option_characters_matched <? String.length (long_option opt))%nat
        then ProcessLongOption_loop opts' span parameter
        else if empty argument_end
        then
          let* parameter_consumed := StoreOption opt parameter in
          ret (true, parameter_consumed)
        else
          let* separator := gets option_value_separator in
          match FindStringStart separator argument_end with
          | (true, value) =>
              if negb (parameter_expected opt) then throw MissingOptionArgument
              else if empty value then throw MissingOptionArgument
              else StoreOption opt (Some value) >> ret (true, false)
          | (false, _) => ProcessLongOption_loop opts' span parameter
          end
  end.

(** [Parser::ProcessLongOption], returning
    [(long_option_matched, parameter_consumed)]. *)
Definition ProcessLongOption (argument : string) (parameter : option string)
  : M (bool * bool) :=
  if empty argument then ret (false, false)
  else
    let* flags := gets long_flags in
    match FindOptionStart flags argument with
    | None => ret (false, false)
    | Some span =>
        if empty span then store "" argument >> ret (true, false)
        else
          let* opts := gets options in
          let* (matched_option, parameter_consumed) :=
            ProcessLongOption_loop opts span parameter in
          if matched_option then ret (true, parameter_consumed)
          else throw InvalidLongOption
    end.

(** The [for (const auto &option : options)] loop inside the [while] of
    [Parser::ProcessShortOption]; [at_end] is
    [argument_iterator == argument.cend()] after the increment.  Returns
    [(matched_option, parameter_consumed)]. *)
Fixpoint ProcessShortOption_find (opts : Options) (user_option : string)
  (at_end : bool) (parameter : option string) (parameter_consumed : bool)
  {struct opts} : M (bool * bool) :=
  match opts with
  | [] => ret (false, parameter_consumed)
  | opt :: opts' =>
      if empty (short_option opt)
      then ProcessShortOption_find opts' user_option at_end parameter parameter_consumed
      else
        let* ci := gets case_insensitive in
        if String.eqb (short_option opt) user_option
           || (ci && String.eqb (Uppercase (short_option opt)) (Uppercase user_option))
        then
          if at_end then
            let* consumed := StoreOption opt parameter in
            ret (true, consumed)
          else
            StoreOption opt None >> ret (true, parameter_consumed)
        else ProcessShortOption_find opts' user_option at_end parameter parameter_consumed
  end.

(** The [while (argument_iterator != argument.cend())] loop of
    [Parser::ProcessShortOption] over the characters after the flag. *)
Fixpoint ProcessShortOption_while (rest : string) (parameter : option string)
  (parameter_consumed : bool) {struct rest} : M bool :=
  match rest with
  | EmptyString => ret parameter_consumed
  | String c rest' =>
      let* opts := gets options in
      let* (matched_option, parameter_consumed') :=
        ProcessShortOption_find opts (String c EmptyString) (empty rest')
                                parameter parameter_consumed in
      if matched_option
      then ProcessShortOption_while rest' parameter parameter_consumed'
      else throw InvalidShortOption
  end.

(** [Parser::ProcessShortOption], returning
    [(short_option_matched, parameter_consumed)]. *)
Definition ProcessShortOption (argument : string) (parameter : option string)
  : M (bool * bool) :=
  if empty argument then ret (false, false)
  else
    let* flags := gets short_flags in
    match FindOptionStart flags argument with
    | None => ret (false, false)
    | Some rest =>
        if empty rest then store "" argument >> ret (true, false)
        else
          let* parameter_consumed := ProcessShortOption_while rest parameter false in
          ret (true, parameter_consumed)
    end.

(** [Parser::ProcessArgument]. *)
Definition ProcessArgument (argument : string) (parameter : option string) : M bool :=
  let positional := store "" argument >> ret false in
  if negb (empty argument) then
    let* (long_option_matched, long_parameter_consumed) :=
      ProcessLongOption argument parameter in
    if long_option_matched then ret long_parameter_consumed
    else
      let* (short_option_matched, short_parameter_consumed) :=
        ProcessShortOption argument parameter in
      if short_option_matched then ret short_parameter_consumed
      else positional
  else positional.

(** The [for] loop of [Parser::ParseArguments]; [arguments] is the
    sequence from index [i] on, so the candidate parameter
    [arguments[i + 1]] is the head of what follows. *)
Fixpoint ParseArguments_loop (arguments : list string) : M unit :=
  match arguments with
  | [] => ret tt
  | argument :: following =>
      let* consumed := ProcessArgument argument (head following) in
      if consumed then
        match following with
        | [] => ret tt
        | _ :: following' => ParseArguments_loop following'
        end
      else ParseArguments_loop following
  end.

(** [Parser::ParseArguments(const std::vector<std::string_view> &)]. *)
Definition ParseArguments (arguments : list string) : M unit :=
  if (length arguments <=? 1)%nat then ret tt
  else ParseArguments_loop (tail arguments).

(** ** The specification validator *)

(** Inner loop of [Parser::CheckOptionFlags]. *)
Fixpoint CheckOptionFlags_short (long_flag : string) (shorts : list string) : M unit :=
  match shorts with
  | [] => ret tt
  | short_flag :: shorts' =>
      if String.eqb long_flag short_flag then throw FlagConflict
      else CheckOptionFlags_short long_flag shorts'
  end.

(** Outer loop of [Parser::CheckOptionFlags]. *)
Fixpoint CheckOptionFlags_long (longs shorts : list string) : M unit :=
  match longs with
  | [] => ret tt
  | long_flag :: longs' =>
      CheckOptionFlags_short long_flag shorts >> CheckOptionFlags_long longs' shorts
  end.

(** [Parser::CheckOptionFlags]. *)
Definition CheckOptionFlags : M unit :=
  let* longs := gets long_flags in
  let* shorts := gets short_flags in
  CheckOptionFlags_long longs shorts.

(** The loop of [Parser::CheckOptions] with its three local
    [std::unordered_map<std::string, bool>]. *)
Fixpoint CheckOptions_loop (opts : Options)
  (identifiers short_options long_options : gmap string bool) : M unit :=
  match opts with
  | [] => ret tt
  | opt :: opts' =>
      if empty (name opt) then throw EmptyIdentifierName
      else if bool_decide (is_Some (identifiers !! name opt))
      then throw DuplicateIdentifier
      else
        let identifiers := <[name opt := true]> identifiers in
        let* short_options :=
          if negb (empty (short_option opt)) then
            if bool_decide (is_Some (short_options !! short_option opt))
            then throw DuplicateShortOption
            else if (1 <? String.length (short_option opt))%nat
            then throw InvalidShortOption
            else ret (<[short_option opt := true]> short_options)
          else ret short_options in
        let* long_options :=
          if negb (empty (long_option opt)) then
            if bool_decide (is_Some (long_options !! long_option opt))
            then throw DuplicateLongOption
            else ret (<[long_option opt := true]> long_options)
          else ret long_options in
        CheckOptions_loop opts' identifiers short_options long_options
  end.

(** [Parser::CheckOptions]. *)
Definition CheckOptions : M unit :=
  let* opts := gets options in
  CheckOptions_loop opts ∅ ∅ ∅.

(** ** Installing a specification *)

(** Default arguments declared in the header. *)
Definition default_short_flags : list string := ["-"].
Definition default_long_flags : list string := ["--"].
Definition default_option_value_separator : string := "=".
Definition default_case_insensitive : bool := false.

(** [Parser::Parser(Options, short_flags, long_flags,
    option_value_separator, case_insensitive)]: the member initialisers
    and an empty body.  A constructor yields the object or throws. *)
Definition Parser_ctor (opts : Options) (shorts longs : list string)
  (separator : string) (ci : bool) : result Parser :=
  Ok (mkParser opts shorts longs separator ci ∅).

(** [Parser::Parser()], which delegates to [Parser(Options{})]. *)
Definition Parser_default : result Parser :=
  Parser_ctor [] default_short_flags default_long_flags
              default_option_value_separator default_case_insensitive.

(** [Parser::SetOptions]. *)
Definition SetOptions (opts : Options) (shorts longs : list string)
  (separator : string) (ci : bool) : M unit :=
  fun p =>
    (ClearOptions >> CheckOptionFlags >> CheckOptions)
      (mkParser opts shorts longs separator ci (option_map p)).

(** ** Queries *)

(** [Parser::OptionGiven]. *)
Definition OptionGiven (option_name : string) (p : Parser) : bool :=
  bool_decide (is_Some (option_map p !! option_name)).

(** [Parser::GetOptionCount]. *)
Definition GetOptionCount (option_name : string) (p : Parser) : nat :=
  match option_map p !! option_name with
  | None => 0
  | Some values => length values
  end.

(** [Parser::FindOptionStrings]. *)
Definition FindOptionStrings (option_name : string) (p : Parser)
  : result (list string) :=
  match option_map p !! option_name with
  | None => Throw OptionNotGiven
  | Some values => Ok values
  end.

(** [std::vector::front]: undefined on an empty vector. *)
Definition front {A} (v : list A) : result A :=
  match v with
  | [] => Undefined
  | x :: _ => Ok x
  end.

(** [Parser::GetOptionString]. *)
Definition GetOptionString (option_name : string) (p : Parser) : result string :=
  match FindOptionStrings option_name p with
  | Ok values => front values
  | Throw e => Throw e
  | Undefined => Undefined
  end.

(** [Parser::GetOptionStrings]. *)
Definition GetOptionStrings (option_name : string) (p : Parser)
  : result (list string) :=
  FindOptionStrings option_name p.

(** ** Numeric retrieval *)

Local Open Scope Z_scope.

(** The two standard exceptions the conversion functions throw. *)
Inductive std_exception : Type := invalid_argument | out_of_range.

(** [isspace] in the "C" locale. *)
Definition isspace (c : ascii) : bool :=
  let n := nat_of_ascii c in
  (n =? 32)%nat || ((9 <=? n)%nat && (n <=? 13)%nat).

Definition digit_value (c : ascii) : option Z :=
  let n := nat_of_ascii c in
  if (48 <=? n)%nat && (n <=? 57)%nat then Some (Z.of_nat n - 48) else None.

Fixpoint skip_space (s : string) : string :=
  match s with
  | String c s' => if isspace c then skip_space s' else s
  | EmptyString => s
  end.

Fixpoint read_digits (s : string) (acc : Z) : Z :=
  match s with
  | String c s' =>
      match digit_value c with
      | Some d => read_digits s' (10 * acc + d)
      | None => acc
      end
  | EmptyString => acc
  end.

(** The subject sequence of [strtol]/[strtoul] in base 10, as the C
    standard library defines it: optional white space, an optional sign,
    then decimal digits; what follows the digits is ignored.  [None] when
    there is no digit (no conversion can be performed), otherwise the sign
    and the magnitude. *)
Definition subject_sequence (s : string) : option (bool * Z) :=
  let s := skip_space s in
  let '(negative, s) :=
    match s with
    | String "-"%char s' => (true, s')
    | String "+"%char s' => (false, s')
    | _ => (false, s)
    end in
  match s with
  | String c _ =>
      match digit_value c with
      | Some _ => Some (negative, read_digits s 0)
      | None => None
      end
  | EmptyString => None
  end.

(** [std::stoul]/[std::stoull] for a [bits]-wide result: a magnitude that
    does not fit is [out_of_range]; a minus sign negates in the unsigned
    type. *)
Definition sto_unsigned (bits : Z) (s : string) : std_exception + Z :=
  match subject_sequence s with
  | None => inl invalid_argument
  | Some (negative, magnitude) =>
      if magnitude >? 2 ^ bits - 1 then inl out_of_range
      else inr (if negative then (2 ^ bits - magnitude) mod 2 ^ bits else magnitude)
  end.

(** [std::stoi]/[std::stol]/[std::stoll] for a [bits]-wide result. *)
Definition sto_signed (bits : Z) (s : string) : std_exception + Z :=
  match subject_sequence s with
  | None => inl invalid_argument
  | Some (negative, magnitude) =>
      let v := if negative then - magnitude else magnitude in
      if (v <? - 2 ^ (bits - 1)) || (v >? 2 ^ (bits - 1) - 1) then inl out_of_range
      else inr v
  end.

(** Widths of the LP64 data model. *)
Definition short_bits : Z := 16.
Definition int_bits : Z := 32.
Definition long_bits : Z := 64.
Definition long_long_bits : Z := 64.

Definition stoi := sto_signed int_bits.
Definition stol := sto_signed long_bits.
Definition stoll := sto_signed long_long_bits.
Definition stoul := sto_unsigned long_bits.
Definition stoull := sto_unsigned long_long_bits.

(** [static_cast] to an unsigned, respectively signed, type of the given
    width. *)
Definition cast_unsigned (bits : Z) (z : Z) : Z := z mod 2 ^ bits.
Definition cast_signed (bits : Z) (z : Z) : Z :=
  (z + 2 ^ (bits - 1)) mod 2 ^ bits - 2 ^ (bits - 1).

(** The converter lambda of the [unsigned] and [unsigned short]
    specialisations, which check the captured bounds before the cast. *)
Definition checked (sto : string -> std_exception + Z) (cast : Z -> Z)
  (min max : Z) (value : string) : std_exception + Z :=
  match sto value with
  | inl e => inl e
  | inr i => if (i <? min) || (i >? max) then inl out_of_range else inr (cast i)
  end.

(** The integral [NumericType]s: the range of the type and the converter
    of its [GetOptionValues] specialisation, which may capture [min] and
    [max].  Values of the type are the integers of its range.  ([float]
    and [double] are left out.) *)
Class NumericType : Type := {
  lowest : Z;
  highest : Z;
  converter : Z -> Z -> string -> std_exception + Z
}.

Definition short_T : NumericType :=
  {| lowest := - 2 ^ (short_bits - 1); highest := 2 ^ (short_bits - 1) - 1;
     converter := checked stoi (cast_signed short_bits) |}.
Definition unsigned_short_T : NumericType :=
  {| lowest := 0; highest := 2 ^ short_bits - 1;
     converter := checked stoi (cast_unsigned short_bits) |}.
Definition int_T : NumericType :=
  {| lowest := - 2 ^ (int_bits - 1); highest := 2 ^ (int_bits - 1) - 1;
     converter := fun _ _ => stoi |}.
Definition unsigned_T : NumericType :=
  {| lowest := 0; highest := 2 ^ int_bits - 1;
     converter := checked stoul (cast_unsigned int_bits) |}.
Definition long_T : NumericType :=
  {| lowest := - 2 ^ (long_bits - 1); highest := 2 ^ (long_bits - 1) - 1;
     converter := fun _ _ => stol |}.
Definition unsigned_long_T : NumericType :=
  {| lowest := 0; highest := 2 ^ long_bits - 1;
     converter := fun _ _ => stoul |}.
Definition long_long_T : NumericType :=
  {| lowest := - 2 ^ (long_long_bits - 1); highest := 2 ^ (long_long_bits - 1) - 1;
     converter := fun _ _ => stoll |}.
Definition unsigned_long_long_T : NumericType :=
  {| lowest := 0; highest := 2 ^ long_long_bits - 1;
     converter := fun _ _ => stoull |}.

Local Close Scope Z_scope.

(** The [for (const auto &option_string : options_strings)] loop inside
    the [try] block of the generic [Parser::GetOptionValues]. *)
Fixpoint GetOptionValues_loop (convert : string -> std_exception + Z)
  (min max : Z) (options_strings : list string) (option_values : list Z)
  : std_exception + list Z :=
  match options_strings with
  | [] => inr option_values
  | option_string :: rest =>
      match convert option_string with
      | inl e => inl e
      | inr option_value =>
          if (option_value <? min)%Z || (option_value >? max)%Z then inl out_of_range
          else GetOptionValues_loop convert min max rest (option_values ++ [option_value])
      end
  end.

(** The generic [Parser::GetOptionValues(option_name, converter,
    option_values, min, max)]: every [catch] clause rethrows as
    [OptionValueError]; the lookup happens before the [try]. *)
Definition GetOptionValues_generic (option_name : string)
  (convert : string -> std_exception + Z) (min max : Z) (p : Parser)
  : result (list Z) :=
  match FindOptionStrings option_name p with
  | Ok options_strings =>
      match GetOptionValues_loop convert min max options_strings [] with
      | inr option_values => Ok option_values
      | inl _ => Throw OptionValueError
      end
  | Throw e => Throw e
  | Undefined => Undefined
  end.

(** The specialisation [Parser::GetOptionValues<T>]. *)
Definition GetOptionValues (T : NumericType) (option_name : string)
  (min max : Z) (p : Parser) : result (list Z) :=
  GetOptionValues_generic option_name (converter min max) min max p.

(** [Parser::GetOptionValue<T>] of the header. *)
Definition GetOptionValue (T : NumericType) (option_name : string)
  (min max : Z) (p : Parser) : result Z :=
  match GetOptionValues T option_name min max p with
  | Ok option_values => front option_values
  | Throw e => Throw e
  | Undefined => Undefined
  end.

(** The sample specification and command line of the test suite. *)
Definition sample_options : Options :=
  [ mkOption "all" "a" "all" false false;
    mkOption "pattern" "p" "pattern" true true;
    mkOption "color" "c" "color" false true;
    mkOption "size" "s" "min-size" false true ].

Definition sample_arguments : list string :=
  ["prog"; "-a"; "-p"; "foo"; "file1"; "-p"; "bar"; "--color"; "red";
   "-s"; "20"; "file2"; "file3"].

(** A parser with the specification [opts] installed under the default
    flags, starting from a default-constructed object. *)
Definition new_parser : Parser :=
  mkParser [] default_short_flags default_long_flags
           default_option_value_separator default_case_insensitive ∅.

Definition install (opts : Options) : M unit :=
  SetOptions opts default_short_flags default_long_flags
             default_option_value_separator default_case_insensitive.

Definition sample_map : gmap string (list string) :=
  {[ "all" := [""]; "pattern" := ["foo"; "bar"]; "color" := ["red"];
     "size" := ["20"]; "" := ["file1"; "file2"; "file3"] ]}.

(** ** Relations between parser states *)

(** The configuration members, which only construction and [SetOptions]
    write. *)
Definition same_config (p p' : Parser) : Prop :=
  options p' = options p /\ short_flags p' = short_flags p /\
  long_flags p' = long_flags p /\
  option_value_separator p' = option_value_separator p /\
  case_insensitive p' = case_insensitive p.

(** Every recorded value sequence is kept as a prefix. *)
Definition grows (m m' : gmap string (list string)) : Prop :=
  forall key values, m !! key = Some values ->
    exists extra, m' !! key = Some (values ++ extra).

(** No key is bound to an empty sequence. *)
Definition nonempty_values (m : gmap string (list string)) : Prop :=
  forall key values, m !! key = Some values -> values <> [].

Definition advances (p p' : Parser) : Prop :=
  same_config p p' /\ grows (option_map p) (option_map p') /\
  (nonempty_values (option_map p) -> nonempty_values (option_map p')).

(** A computation is steady when the state it leaves, whatever its
    outcome, advances the state it started from. *)
Definition steady {A} (m : M A) : Prop :=
  forall p, advances p (snd (m p)).

(** States a program can bring a parser into through the public
    interface. *)
Inductive reachable : Parser -> Prop :=
| reachable_ctor opts shorts longs separator ci p :
    Parser_ctor opts shorts longs separator ci = Ok p -> reachable p
| reachable_SetOptions opts shorts longs separator ci p :
    reachable p -> reachable (snd (SetOptions opts shorts longs separator ci p))
| reachable_ClearOptions p :
    reachable p -> reachable (snd (ClearOptions p))
| reachable_ParseArguments arguments p :
    reachable p -> reachable (snd (ParseArguments arguments p)).

(** The reading of "every re-parse clears the results recorded by the
    previous parse": parsing from any state records what parsing from the
    cleared state records. *)
Definition reparse_clears : Prop :=
  forall arguments p,
    option_map (snd (ParseArguments arguments p)) =
    option_map (snd (ParseArguments arguments (snd (ClearOptions p)))).

(** A computation that writes no member. *)
Definition readonly {A} (m : M A) : Prop := forall p, snd (m p) = p.

(** Prefixes of a token. *)
Definition is_prefix (flag token : string) : Prop :=
  exists rest, token = flag +:+ rest.

Definition proper_prefix (flag token : string) : Prop :=
  exists rest, rest <> "" /\ token = flag +:+ rest.

(** The reading of "every token that consists of exactly one long-flag or
    short-flag prefix is stored verbatim under the positional key, with no
    error and no following token consumed". *)
Definition bare_flag_is_positional : Prop :=
  forall p token parameter,
    token ∈ long_flags p \/ token ∈ short_flags p ->
    ProcessArgument token parameter p =
    (Ok false, with_option_map (emplace_back "" token (option_map p)) p).

(** The scan of [ProcessLongOption_loop] passes over a descriptor: it has
    no long form, or its long form is not matched in full, or what follows
    the match is neither the end of the token nor the separator. *)
Definition passed_over (ci : bool) (separator span : string) (opt : Option) : bool :=
  empty (long_option opt) ||
  (let '(matched, rest) := long_option_match ci (long_option opt) span 0 in
   (matched <? String.length (long_option opt))%nat ||
   (negb (empty rest) && negb (fst (FindStringStart separator rest)))).

(** The reading of "the text after the separator becomes the option's
    value and the following token is not consumed": for a long token
    made of a long flag, the long form of the descriptor the scan reaches,
    the non-empty separator and a non-empty text, the descriptor
    expecting a value, the text is appended to the option's values and
    the parameter is reported as not consumed. *)
Definition embedded_value_is_recorded : Prop :=
  forall p flag earlier later before opt after value parameter,
    long_flags p = earlier ++ flag :: later ->
    Forall (fun f => ~ is_prefix f
                       (flag +:+ long_option opt +:+ option_value_separator p +:+ value))
           earlier ->
    options p = before ++ opt :: after ->
    Forall (fun o => passed_over (case_insensitive p) (option_value_separator p)
                       (long_option opt +:+ option_value_separator p +:+ value) o = true)
           before ->
    long_option opt <> "" ->
    option_value_separator p <> "" ->
    parameter_expected opt = true ->
    value <> "" ->
    ProcessLongOption
      (flag +:+ long_option opt +:+ option_value_separator p +:+ value) parameter p =
    (Ok (true, false),
     with_option_map (emplace_back (name opt) value (option_map p)) p).

(** The test the scan of [ProcessShortOption_find] applies to a
    descriptor for the bundle character [user_option]. *)
Definition short_matches (ci : bool) (user_option : string) (opt : Option) : bool :=
  negb (empty (short_option opt)) &&
  (String.eqb (short_option opt) user_option ||
   (ci && String.eqb (Uppercase (short_option opt)) (Uppercase user_option))).

(** The reading of "a character at a non-last bundle position whose
    descriptor expects a value makes the store step fail with the
    missing-argument error". *)
Definition mid_bundle_missing_argument : Prop :=
  forall p c after parameter consumed opt,
    after <> "" ->
    List.find (short_matches (case_insensitive p) (String c "")) (options p) = Some opt ->
    parameter_expected opt = true ->
    fst (ProcessShortOption_while (String c after) parameter consumed p) =
    Throw MissingOptionArgument.

(** A computation whose outcome does not depend on the state it runs in. *)
Definition stateless {A} (m : M A) : Prop := forall p q, fst (m p) = fst (m q).

(** A recorded string that the conversion refuses or that converts to a
    value outside [[min, max]]. *)
Definition rejected (convert : string -> std_exception + Z) (min max : Z)
  (option_string : string) : Prop :=
  match convert option_string with
  | inl _ => True
  | inr v => (v < min \/ max < v)%Z
  end.

(** A recorded string that converts to a value inside [[min, max]]. *)
Definition accepted (convert : string -> std_exception + Z) (min max : Z)
  (option_string : string) (v : Z) : Prop :=
  convert option_string = inr v /\ (min <= v <= max)%Z.

(** The members of [l] that are not the empty string. *)
Definition nonempties (l : list string) : list string :=
  List.filter (fun s => negb (empty s)) l.

(** The validator's contract in the words of the specification: no
    descriptor has an empty name, no two descriptors share a name, no two
    share a non-empty short form, no short form is longer than one
    character, no two share a non-empty long form, and no string is both a
    short-flag and a long-flag prefix. *)
Definition valid_specification (opts : Options) (shorts longs : list string) : Prop :=
  Forall (fun o => name o <> "") opts /\
  NoDup (map name opts) /\
  NoDup (nonempties (map short_option opts)) /\
  Forall (fun o => String.length (short_option o) <= 1) opts /\
  NoDup (nonempties (map long_option opts)) /\
  (forall flag, flag ∈ longs -> flag ∉ shorts).

(** The keys are pairwise distinct and none of them has been seen. *)
Definition unseen (seen : gmap string bool) (keys : list string) : Prop :=
  NoDup keys /\ forall key, key ∈ keys -> seen !! key = None.

(** A descriptor with an empty name, which the validator refuses. *)
Definition nameless_options : Options := [mkOption "" "a" "all" false false].

(** ** The remaining entry points *)

(** [Parser::ParseArguments(const int argc, const char *const argv[])].
    The caller owes [argv] at least [argc] entries; the first [argc] of
    them are the argument vector. *)
Definition ParseArguments_argv (argc : Z) (argv : list string) : M unit :=
  if (0 <? argc)%Z then ParseArguments (take (Z.to_nat argc) argv)
  else ret tt.

(** The specification of the sample program [tar_like]. *)
Definition tar_like_options : Options :=
  [ mkOption "create" "c" "create" false false;
    mkOption "compress" "z" "compress" false false;
    mkOption "help" "?" "help" false false;
    mkOption "level" "l" "level" false true;
    mkOption "filename" "f" "filename" false true;
    mkOption "verbose" "v" "" true false;
    mkOption "directory" "C" "directory" false true;
    mkOption "exclude" "" "exclude" true true ].

(** [parse_options] of the sample program (the branch that is not
    Windows), without what it prints: every exception is caught and
    answered with [false]. *)
Definition parse_options (argc : Z) (argv : list string) (parser : Parser)
  : bool * Parser :=
  match install tar_like_options parser with
  | (Ok _, parser1) =>
      match ParseArguments_argv argc argv parser1 with
      | (Ok _, parser2) => (true, parser2)
      | (_, parser2) => (false, parser2)
      end
  | (_, parser1) => (false, parser1)
  end.

(** ** What a parse does to the result store *)

(** The two writes a parse performs: a token goes under the positional
    key, or [StoreOption] records an occurrence of a descriptor of the
    specification. *)
Inductive store_step (p : Parser) : Parser -> Prop :=
| store_positional token :
    store_step p (with_option_map (emplace_back "" token (option_map p)) p)
| store_option opt parameter consumed p' :
    opt ∈ options p ->
    StoreOption opt parameter p = (Ok consumed, p') ->
    store_step p p'.

(** The errors of matching and storing. *)
Definition parse_error (e : OptionsError) : Prop :=
  e = InvalidShortOption \/ e = InvalidLongOption \/
  e = MultipleInstances \/ e = MissingOptionArgument.

(** The errors of the specification validator. *)
Definition specification_error (e : OptionsError) : Prop :=
  e = FlagConflict \/ e = EmptyIdentifierName \/ e = DuplicateIdentifier \/
  e = DuplicateShortOption \/ e = InvalidShortOption \/ e = DuplicateLongOption.

(** The outcome [rp] of a computation started in [p]: the state was
    reached from [p] by store steps, a returned value satisfies [Q] in
    the state it is returned in, a thrown error is a parse error, and the
    behaviour is defined. *)
Definition follows {A} (p : Parser) (Q : A -> Parser -> Prop)
  (rp : result A * Parser) : Prop :=
  match rp with
  | (Ok a, p') => rtc store_step p p' /\ Q a p'
  | (Throw e, p') => rtc store_step p p' /\ parse_error e
  | (Undefined, _) => False
  end.

(** The candidate parameter is present and is the last value recorded
    for a descriptor that expects a value. *)
Definition recorded_last (parameter : option string) (p : Parser) : Prop :=
  exists value opt values,
    parameter = Some value /\ opt ∈ options p /\ parameter_expected opt = true /\
    option_map p !! name opt = Some (values ++ [value]).

(** Every key of the result mapping is the positional key or the name of
    a descriptor. *)
Definition keys_from_specification (p : Parser) : Prop :=
  forall key values,
    option_map p !! key = Some values ->
    key = "" \/ exists opt, opt ∈ options p /\ name opt = key.

(** No descriptor that forbids repetition has more than one recorded
    value. *)
Definition single_instances_respected (p : Parser) : Prop :=
  forall opt,
    opt ∈ options p -> multiple_allowed opt = false ->
    GetOptionCount (name opt) p <= 1.

(** A descriptor that expects no value has only empty strings recorded. *)
Definition flags_record_empty (p : Parser) : Prop :=
  forall opt values,
    opt ∈ options p -> parameter_expected opt = false ->
    option_map p !! name opt = Some values ->
    Forall (fun value => value = "") values.

(** Names are non-empty and pairwise distinct, as the validator
    requires. *)
Definition names_distinct (opts : Options) : Prop :=
  Forall (fun o => name o <> "") opts /\ NoDup (map name opts).

(** [n] copies of a character. *)
Fixpoint repeat_char (c : ascii) (n : nat) : string :=
  match n with
  | O => ""
  | S n' => String c (repeat_char c n')
  end.

(** The integral types [GetOptionValues] is specialised for. *)
Definition integral_types : list NumericType :=
  [short_T; unsigned_short_T; int_T; unsigned_T;
   long_T; unsigned_long_T; long_long_T; unsigned_long_long_T].

(** * Properties *)

(** ** The monad and the store *)

Lemma advances_refl p : advances p p.
Proof.
  repeat split; auto.
  intros key values H. exists []. by rewrite app_nil_r.
Qed.

Lemma advances_trans p1 p2 p3 : advances p1 p2 -> advances p2 p3 -> advances p1 p3.
Proof.
  intros [(Ha & Hb & Hc & Hd & He) [Hg Hn]] [(Ha' & Hb' & Hc' & Hd' & He') [Hg' Hn']].
  repeat split; try congruence; auto.
  intros key values H.
  destruct (Hg _ _ H) as [e1 H1]. destruct (Hg' _ _ H1) as [e2 H2].
  exists (e1 ++ e2). by rewrite app_assoc.
Qed.

Lemma steady_ret {A} (a : A) : steady (ret a).
Proof. intros p. apply advances_refl. Qed.

Lemma steady_throw {A} e : steady (@throw A e).
Proof. intros p. apply advances_refl. Qed.

Lemma steady_gets {A} (f : Parser -> A) : steady (gets f).
Proof. intros p. apply advances_refl. Qed.

Lemma steady_bind {A B} (m : M A) (f : A -> M B) :
  steady m -> (forall a, steady (f a)) -> steady (bind m f).
Proof.
  intros Hm Hf p. unfold bind. specialize (Hm p).
  destruct (m p) as [[a | e |] p'] eqn:E; simpl in *; auto.
  eapply advances_trans; [exact Hm | apply Hf].
Qed.

Lemma emplace_back_lookup key value m :
  emplace_back key value m !! key = Some (default [] (m !! key) ++ [value]).
Proof. unfold emplace_back. by rewrite lookup_insert_eq. Qed.

Lemma emplace_back_lookup_ne key key' value m :
  key <> key' -> emplace_back key value m !! key' = m !! key'.
Proof. intros H. unfold emplace_back. by rewrite lookup_insert_ne. Qed.

Lemma steady_store key value : steady (store key value).
Proof.
  intros p. unfold store; simpl. repeat split; simpl.
  - intros k values H. destruct (decide (key = k)) as [-> | Hne].
    + rewrite emplace_back_lookup, H. simpl. eauto.
    + rewrite emplace_back_lookup_ne by done. exists []. by rewrite app_nil_r.
  - intros Hn k values H. destruct (decide (key = k)) as [-> | Hne].
    + rewrite emplace_back_lookup in H. injection H as <-.
      intros Hnil. by apply app_eq_nil in Hnil as [_ ?].
    + rewrite emplace_back_lookup_ne in H by done. eauto.
Qed.

Create HintDb steady.
#[local] Hint Resolve steady_ret steady_throw steady_gets steady_store : steady.

(** Takes a goal [steady m] apart along the shape of [m]. *)
Ltac steady_step :=
  repeat first
    [ progress eauto with steady
    | apply steady_bind; [ | intros ? ]
    | match goal with
      | |- steady (let '(_, _) := ?x in _) => destruct x
      | |- steady (match ?x with _ => _ end) => destruct x
      | |- steady (fun _ => _) => unfold steady
      end ].

Lemma steady_StoreOption opt parameter : steady (StoreOption opt parameter).
Proof.
  intros p. unfold StoreOption.
  destruct (_ && _); [apply steady_throw |].
  destruct (negb _); [apply steady_bind; steady_step |].
  destruct parameter; [apply steady_bind; steady_step | apply steady_throw].
Qed.

#[local] Hint Resolve steady_StoreOption : steady.

Lemma steady_ProcessLongOption_loop opts span parameter :
  steady (ProcessLongOption_loop opts span parameter).
Proof.
  induction opts as [| opt opts IH]; simpl; steady_step.
Qed.

#[local] Hint Resolve steady_ProcessLongOption_loop : steady.

Lemma steady_ProcessLongOption argument parameter :
  steady (ProcessLongOption argument parameter).
Proof. unfold ProcessLongOption. steady_step. Qed.

Lemma steady_ProcessShortOption_find opts user_option at_end parameter consumed :
  steady (ProcessShortOption_find opts user_option at_end parameter consumed).
Proof.
  induction opts as [| opt opts IH]; simpl; steady_step.
Qed.

#[local] Hint Resolve steady_ProcessLongOption steady_ProcessShortOption_find : steady.

Lemma steady_ProcessShortOption_while rest parameter consumed :
  steady (ProcessShortOption_while rest parameter consumed).
Proof.
  revert consumed. induction rest as [| c rest IH]; intros; simpl; steady_step.
Qed.

#[local] Hint Resolve steady_ProcessShortOption_while : steady.

Lemma steady_ProcessShortOption argument parameter :
  steady (ProcessShortOption argument parameter).
Proof. unfold ProcessShortOption. steady_step. Qed.

#[local] Hint Resolve steady_ProcessShortOption : steady.

Lemma steady_ProcessArgument argument parameter :
  steady (ProcessArgument argument parameter).
Proof. unfold ProcessArgument. steady_step. Qed.

#[local] Hint Resolve steady_ProcessArgument : steady.

Lemma steady_ParseArguments_loop arguments : steady (ParseArguments_loop arguments).
Proof.
  enough (steady (ParseArguments_loop arguments) /\
          steady (ParseArguments_loop (tail arguments))) by tauto.
  induction arguments as [| argument following [IH IHtail]]; simpl.
  - split; steady_step.
  - split; [| exact IH].
    apply steady_bind; [steady_step |]. intros consumed.
    destruct consumed; [| exact IH].
    destruct following; [steady_step | exact IHtail].
Qed.

Lemma steady_ParseArguments arguments : steady (ParseArguments arguments).
Proof.
  unfold ParseArguments. destruct (_ <=? _)%nat; [steady_step |].
  apply steady_ParseArguments_loop.
Qed.

(** ** Installing and re-parsing *)

Lemma readonly_ret {A} (a : A) : readonly (ret a).
Proof. by intros p. Qed.

Lemma readonly_throw {A} e : readonly (@throw A e).
Proof. by intros p. Qed.

Lemma readonly_gets {A} (f : Parser -> A) : readonly (gets f).
Proof. by intros p. Qed.

Lemma readonly_bind {A B} (m : M A) (f : A -> M B) :
  readonly m -> (forall a, readonly (f a)) -> readonly (bind m f).
Proof.
  intros Hm Hf p. unfold bind. specialize (Hm p).
  destruct (m p) as [[a | e |] p']; simpl in *; subst; auto. apply Hf.
Qed.

Create HintDb readonly.
#[local] Hint Resolve readonly_ret readonly_throw readonly_gets : readonly.

Ltac readonly_step :=
  repeat first
    [ progress eauto with readonly
    | apply readonly_bind; [ | intros ? ]
    | match goal with
      | |- readonly (match ?x with _ => _ end) => destruct x
      end ].

Lemma readonly_CheckOptionFlags : readonly CheckOptionFlags.
Proof.
  unfold CheckOptionFlags. readonly_step.
  rename a into longs, a0 into shorts.
  induction longs as [| long_flag longs IH]; simpl; readonly_step.
  clear IH. induction shorts as [| short_flag shorts IH]; simpl; readonly_step.
Qed.

Lemma readonly_CheckOptions_loop opts ids shorts longs :
  readonly (CheckOptions_loop opts ids shorts longs).
Proof.
  revert ids shorts longs.
  induction opts as [| opt opts IH]; intros; simpl; readonly_step.
Qed.

Lemma readonly_CheckOptions : readonly CheckOptions.
Proof.
  unfold CheckOptions. readonly_step. apply readonly_CheckOptions_loop.
Qed.

Lemma SetOptions_state opts shorts longs separator ci p :
  snd (SetOptions opts shorts longs separator ci p) =
  mkParser opts shorts longs separator ci ∅.
Proof.
  unfold SetOptions.
  set (q := mkParser opts shorts longs separator ci (option_map p)).
  unfold bind at 1. simpl.
  change (with_option_map ∅ q) with (mkParser opts shorts longs separator ci ∅).
  apply (readonly_bind CheckOptionFlags (fun _ => CheckOptions)).
  - apply readonly_CheckOptionFlags.
  - intros _. apply readonly_CheckOptions.
Qed.

(** C1: the sample command line of the test suite, parsed against the
    sample specification installed with the default flags on a
    default-constructed parser, succeeds and leaves exactly the mapping
    all:[""], pattern:["foo","bar"], color:["red"], size:["20"],
    "":["file1","file2","file3"]. *)
Theorem C1_sample_command_line :
  Parser_default = Ok new_parser /\
  (install sample_options >> ParseArguments sample_arguments) new_parser =
  (Ok tt,
   mkParser sample_options default_short_flags default_long_flags
            default_option_value_separator default_case_insensitive sample_map).
Proof. split; [reflexivity | vm_compute; reflexivity]. Qed.

(** C2, as stated, fails: a second parse on the same parser does not
    start from an empty mapping. *)
Lemma C2_reparse_is_merged : ~ reparse_clears.
Proof.
  intros H.
  specialize (H ["prog"; "file2"]
                (snd (ParseArguments ["prog"; "file1"] new_parser))).
  apply (f_equal (fun m => m !! "")) in H.
  vm_compute in H. discriminate H.
Qed.

(** C2, amended: installing a specification with [SetOptions] leaves the
    result mapping empty whatever the prior state and whether or not
    validation succeeds, as do [ClearOptions] and construction; a parse
    clears nothing: it keeps the configuration and every value sequence
    recorded before it as a prefix of the sequence recorded after it, so
    a re-parse without a reset in between merges its results with the
    earlier ones. *)
Theorem C2_install_resets_parse_accumulates :
  (forall opts shorts longs separator ci p,
      option_map (snd (SetOptions opts shorts longs separator ci p)) = ∅) /\
  (forall p, option_map (snd (ClearOptions p)) = ∅) /\
  (forall opts shorts longs separator ci,
      exists p, Parser_ctor opts shorts longs separator ci = Ok p /\ option_map p = ∅) /\
  (forall arguments p key values,
      same_config p (snd (ParseArguments arguments p)) /\
      (option_map p !! key = Some values ->
       exists extra,
         option_map (snd (ParseArguments arguments p)) !! key = Some (values ++ extra))) /\
  option_map (snd ((ParseArguments ["prog"; "file1"] >> ParseArguments ["prog"; "file2"])
                     new_parser)) !! "" = Some ["file1"; "file2"].
Proof.
  split; [| split; [| split; [| split]]].
  - intros. by rewrite SetOptions_state.
  - done.
  - intros. eexists. split; [reflexivity | done].
  - intros arguments p key values.
    destruct (steady_ParseArguments arguments p) as (Hc & Hg & _).
    split; [exact Hc | apply Hg].
  - vm_compute. reflexivity.
Qed.

(** A second parse keeps what the first one recorded. *)
Lemma C2_install_resets_parse_accumulates_witness :
  let p := snd (ParseArguments ["prog"; "file1"] new_parser) in
  option_map p !! "" = Some ["file1"] /\
  exists extra,
    option_map (snd (ParseArguments ["prog"; "file2"] p)) !! "" =
    Some (["file1"] ++ extra).
Proof.
  simpl. split; [reflexivity |].
  apply (proj2 (proj1 (proj2 (proj2 (proj2 C2_install_resets_parse_accumulates)))
                  ["prog"; "file2"]
                  (snd (ParseArguments ["prog"; "file1"] new_parser))
                  "" ["file1"])).
  reflexivity.
Defined.

(** ** The non-emptiness invariant *)

Lemma reachable_nonempty p : reachable p -> nonempty_values (option_map p).
Proof.
  induction 1 as [? ? ? ? ? p H | ? ? ? ? ? p _ _ | p _ _ | arguments p _ IH].
  - injection H as <-. intros key values; simpl. by rewrite lookup_empty.
  - rewrite SetOptions_state. intros key values; simpl. by rewrite lookup_empty.
  - intros key values; simpl. by rewrite lookup_empty.
  - by apply (steady_ParseArguments arguments p).
Qed.

(** C9: in every state reachable through the public interface no key of
    the result mapping is bound to an empty sequence; a parse only ever
    appends to the recorded sequences; hence a present option has a count
    of at least one and [GetOptionString] returns its first recorded
    value (it neither throws nor takes the front of an empty vector). *)
Theorem C9_recorded_sequences_nonempty p :
  reachable p ->
  nonempty_values (option_map p) /\
  (forall option_name,
      OptionGiven option_name p = true ->
      1 <= GetOptionCount option_name p /\
      exists value values,
        option_map p !! option_name = Some (value :: values) /\
        GetOptionString option_name p = Ok value) /\
  (forall arguments key values,
      option_map p !! key = Some values ->
      exists extra,
        option_map (snd (ParseArguments arguments p)) !! key = Some (values ++ extra)).
Proof.
  intros Hr. pose proof (reachable_nonempty p Hr) as Hn.
  split; [exact Hn |]. split.
  - intros option_name Hgiven.
    unfold OptionGiven in Hgiven. apply bool_decide_eq_true in Hgiven as [vs Hvs].
    unfold GetOptionCount, GetOptionString, FindOptionStrings. rewrite Hvs.
    destruct vs as [| value values]; [by apply Hn in Hvs |].
    split; [simpl; lia | eauto].
  - intros arguments key values.
    apply (steady_ParseArguments arguments p).
Qed.

(** A reachable state with recorded options: the sample parse. *)
Lemma C9_recorded_sequences_nonempty_witness :
  let p := snd ((install sample_options >> ParseArguments sample_arguments) new_parser) in
  reachable p /\ nonempty_values (option_map p).
Proof.
  simpl.
  assert (reachable
            (snd ((install sample_options >> ParseArguments sample_arguments) new_parser)))
    as Hr.
  { change (reachable (snd (ParseArguments sample_arguments
                              (snd (install sample_options new_parser))))).
    apply reachable_ParseArguments, reachable_SetOptions.
    by eapply reachable_ctor. }
  split; [exact Hr |].
  exact (proj1 (C9_recorded_sequences_nonempty _ Hr)).
Defined.

(** ** Prefix matching *)

Lemma empty_true s : empty s = true <-> s = "".
Proof. destruct s; simpl; split; done. Qed.

Lemma empty_false s : empty s = false <-> s <> "".
Proof. destruct s; simpl; split; done. Qed.

Lemma append_empty_r s : s +:+ "" = s.
Proof. induction s as [| c s IH]; simpl; [done | by rewrite IH]. Qed.

Lemma append_eq_empty s t : s +:+ t = "" -> s = "" /\ t = "".
Proof. destruct s; simpl; [auto | discriminate]. Qed.

Lemma FindStringStart_loop_app prefix s n :
  FindStringStart_loop prefix (prefix +:+ s) n = (n + String.length prefix, s).
Proof.
  revert n. induction prefix as [| c prefix IH]; intros n; simpl.
  - f_equal. lia.
  - rewrite Ascii.eqb_refl. destruct (empty (prefix +:+ s)) eqn:E.
    + apply empty_true in E. apply append_eq_empty in E as [-> ->].
      simpl. f_equal. lia.
    + rewrite IH. f_equal. lia.
Qed.

Lemma FindStringStart_app prefix s :
  prefix +:+ s <> "" -> FindStringStart prefix (prefix +:+ s) = (true, s).
Proof.
  intros H. unfold FindStringStart.
  apply empty_false in H. rewrite H, FindStringStart_loop_app. simpl.
  by rewrite Nat.eqb_refl.
Qed.

Lemma FindStringStart_loop_inv prefix s n matched rest :
  FindStringStart_loop prefix s n = (matched, rest) ->
  matched <= n + String.length prefix /\
  (matched = n + String.length prefix -> s = prefix +:+ rest).
Proof.
  revert s n. induction prefix as [| c prefix IH]; intros s n; simpl.
  - intros [= <- <-]. split; [lia | done].
  - destruct s as [| x s]; [intros [= <- <-]; split; [lia | lia] |].
    destruct (Ascii.eqb_spec c x) as [<- | Hne];
      [| intros [= <- <-]; split; [lia | lia]].
    destruct (empty s) eqn:E.
    + intros [= <- <-]. split; [lia |]. intros Hlen.
      apply empty_true in E as ->.
      destruct prefix; [done | simpl in Hlen; lia].
    + intros H. apply IH in H as [Hle Heq]. split; [lia |].
      intros Hlen. rewrite Heq by lia. done.
Qed.

(** A true result of [FindStringStart] is a byte-exact prefix. *)
Lemma FindStringStart_true prefix s rest :
  FindStringStart prefix s = (true, rest) -> s = prefix +:+ rest.
Proof.
  unfold FindStringStart. destruct (empty s); [discriminate |].
  destruct (FindStringStart_loop prefix s 0) as [matched rest'] eqn:E.
  intros [= Hm <-]. apply Nat.eqb_eq in Hm.
  apply FindStringStart_loop_inv in E as [_ E]. apply E. simpl. done.
Qed.

(** The first flag that is a prefix of the token decides. *)
Lemma FindOptionStart_first earlier flag later rest :
  flag +:+ rest <> "" ->
  Forall (fun f => forall r, flag +:+ rest = f +:+ r -> r = rest) earlier ->
  FindOptionStart (earlier ++ flag :: later) (flag +:+ rest) = Some rest.
Proof.
  intros Hne Hearlier. unfold FindOptionStart.
  apply empty_false in Hne as Hne'. rewrite Hne'. clear Hne'.
  induction Hearlier as [| f earlier Hf _ IH]; simpl.
  - by rewrite FindStringStart_app.
  - destruct (FindStringStart f (flag +:+ rest)) as [[] r] eqn:E; [| exact IH].
    apply FindStringStart_true in E. by rewrite (Hf r E).
Qed.

Lemma FindOptionStart_none flags token :
  Forall (fun f => ~ is_prefix f token) flags ->
  FindOptionStart flags token = None.
Proof.
  intros H. unfold FindOptionStart. destruct (empty token); [done |].
  induction H as [| f flags Hf _ IH]; simpl; [done |].
  destruct (FindStringStart f token) as [[] r] eqn:E; [| exact IH].
  apply FindStringStart_true in E. destruct Hf. by exists r.
Qed.

Lemma FindOptionStart_bare earlier token later :
  token <> "" ->
  Forall (fun f => ~ proper_prefix f token) earlier ->
  FindOptionStart (earlier ++ token :: later) token = Some "".
Proof.
  intros Hne Hearlier.
  rewrite <- (append_empty_r token) at 2.
  apply FindOptionStart_first.
  - by rewrite append_empty_r.
  - rewrite append_empty_r. eapply Forall_impl; [exact Hearlier |].
    intros f Hf r Hr. simpl in Hf.
    destruct r; [done |]. destruct Hf. eexists. split; [| exact Hr]. done.
Qed.

(** ** Bare flags *)

(** C6, as stated, fails: with the long flags "-" and "--" (and the short
    flag "/", a configuration [SetOptions] accepts), the token "--" is a
    configured long flag with nothing after it, yet it is read as the long
    flag "-" followed by the option name "-" and rejected. *)
Lemma C6_overlapping_flags :
  let p := snd (SetOptions sample_options ["/"] ["-"; "--"] "=" false new_parser) in
  fst (SetOptions sample_options ["/"] ["-"; "--"] "=" false new_parser) = Ok tt /\
  "--" ∈ long_flags p /\
  ProcessArgument "--" (Some "next") p = (Throw InvalidLongOption, p) /\
  ~ bare_flag_is_positional.
Proof.
  simpl. split; [by vm_compute |]. split; [vm_compute; set_solver |].
  assert (ProcessArgument "--" (Some "next")
            (snd (SetOptions sample_options ["/"] ["-"; "--"] "=" false new_parser)) =
          (Throw InvalidLongOption,
           snd (SetOptions sample_options ["/"] ["-"; "--"] "=" false new_parser))) as E
    by (vm_compute; reflexivity).
  split; [exact E |].
  intros H.
  specialize (H (snd (SetOptions sample_options ["/"] ["-"; "--"] "=" false new_parser))
                "--" (Some "next")).
  rewrite E in H. discriminate H. left. vm_compute. set_solver.
Qed.

(** C6, amended: a token that is a configured long flag, no long flag
    listed before it being a proper prefix of it, or a configured short
    flag, no long flag being a prefix of it and no short flag listed before
    it being a proper prefix of it (so "--" and "-" under the default
    flags), is stored verbatim under the positional key; no error is raised
    and the following token is not consumed. *)
Theorem C6_bare_flag_positional p token parameter :
  (exists earlier later,
      long_flags p = earlier ++ token :: later /\
      Forall (fun f => ~ proper_prefix f token) earlier) \/
  (Forall (fun f => ~ is_prefix f token) (long_flags p) /\
   exists earlier later,
      short_flags p = earlier ++ token :: later /\
      Forall (fun f => ~ proper_prefix f token) earlier) ->
  ProcessArgument token parameter p =
  (Ok false, with_option_map (emplace_back "" token (option_map p)) p).
Proof.
  intros H. unfold ProcessArgument.
  destruct (empty token) eqn:Etoken; [reflexivity |]. simpl.
  apply empty_false in Etoken as Hne.
  unfold ProcessLongOption, ProcessShortOption. rewrite Etoken.
  unfold bind at 1. unfold bind at 1. unfold gets at 1.
  destruct H as [(earlier & later & Hflags & Hearlier)
                | (Hlong & earlier & later & Hflags & Hearlier)].
  - rewrite Hflags, FindOptionStart_bare by done. reflexivity.
  - rewrite FindOptionStart_none by done. simpl.
    unfold bind at 1. unfold bind at 1. unfold gets at 1.
    rewrite Hflags, FindOptionStart_bare by done. reflexivity.
Qed.

(** The default flags: "--" is the long flag; "-" is the short flag, of
    which the long flag is no prefix. *)
Lemma C6_bare_flag_positional_witness :
  ProcessArgument "--" (Some "next") new_parser =
    (Ok false, with_option_map (emplace_back "" "--" ∅) new_parser) /\
  ProcessArgument "-" (Some "next") new_parser =
    (Ok false, with_option_map (emplace_back "" "-" ∅) new_parser).
Proof.
  split.
  - apply (C6_bare_flag_positional new_parser "--" (Some "next")).
    left. exists [], []. split; [reflexivity | constructor].
  - apply (C6_bare_flag_positional new_parser "-" (Some "next")).
    right. split.
    + repeat constructor. intros [r Hr]. discriminate Hr.
    + exists [], []. split; [reflexivity | constructor].
Defined.

(** ** Long options *)

Lemma bind_gets {A B} (f : Parser -> A) (k : A -> M B) p :
  bind (gets f) k p = k (f p) p.
Proof. reflexivity. Qed.

Lemma long_option_match_app ci long_name rest n :
  long_option_match ci long_name (long_name +:+ rest) n =
  (n + String.length long_name, rest).
Proof.
  revert n. induction long_name as [| c long_name IH]; intros n; simpl.
  - f_equal. lia.
  - rewrite Ascii.eqb_refl. simpl. destruct (empty (long_name +:+ rest)) eqn:E.
    + apply empty_true in E. apply append_eq_empty in E as [-> ->].
      simpl. f_equal. lia.
    + rewrite IH. f_equal. lia.
Qed.

Lemma ProcessLongOption_loop_passed_over opt opts span parameter p :
  passed_over (case_insensitive p) (option_value_separator p) span opt = true ->
  ProcessLongOption_loop (opt :: opts) span parameter p =
  ProcessLongOption_loop opts span parameter p.
Proof.
  unfold passed_over. intros H. simpl.
  destruct (empty (long_option opt)); [done |]. simpl in H.
  rewrite bind_gets.
  destruct (long_option_match _ _ _ _) as [matched rest].
  destruct (matched <? _)%nat; [done |]. simpl in H.
  apply andb_true_iff in H as [Hrest Hsep].
  apply negb_true_iff in Hrest, Hsep. rewrite Hrest, bind_gets.
  destruct (FindStringStart _ rest) as [[] value]; simpl in *; done.
Qed.

Lemma ProcessLongOption_loop_skip before opts span parameter p :
  Forall (fun o => passed_over (case_insensitive p) (option_value_separator p)
                               span o = true) before ->
  ProcessLongOption_loop (before ++ opts) span parameter p =
  ProcessLongOption_loop opts span parameter p.
Proof.
  induction 1 as [| o before Ho _ IH]; [done |].
  rewrite <- app_comm_cons, ProcessLongOption_loop_passed_over by done. exact IH.
Qed.

Lemma ProcessLongOption_loop_value opt opts value parameter p :
  long_option opt <> "" -> option_value_separator p <> "" ->
  ProcessLongOption_loop (opt :: opts)
    (long_option opt +:+ option_value_separator p +:+ value) parameter p =
  (if negb (parameter_expected opt) then throw MissingOptionArgument
   else if empty value then throw MissingOptionArgument
   else StoreOption opt (Some value) >> ret (true, false)) p.
Proof.
  intros Hlong Hsep. simpl.
  apply empty_false in Hlong as ->. rewrite bind_gets, long_option_match_app.
  simpl. rewrite Nat.ltb_irrefl.
  assert (option_value_separator p +:+ value <> "") as Hne
    by (intros H; by apply append_eq_empty in H as [? _]).
  apply empty_false in Hne as Hne'. rewrite Hne', bind_gets.
  by rewrite FindStringStart_app.
Qed.

(** C5, as stated, fails: when the matched descriptor forbids repetition
    and its name is already recorded, the text after the separator does
    not become a value of the option; the store step rejects the token
    with the multiple-instances error and the recorded values stay as
    they were ([--color=red --color=blue] leaves color -> ["red"]). *)
Lemma C5_embedded_value_repeated :
  let p := snd ((install sample_options >> ParseArguments ["prog"; "--color=red"])
                  new_parser) in
  option_map p !! "color" = Some ["red"] /\
  ProcessLongOption "--color=blue" (Some "next") p = (Throw MultipleInstances, p) /\
  (install sample_options >> ParseArguments ["prog"; "--color=red"; "--color=blue"])
    new_parser = (Throw MultipleInstances, p) /\
  ~ embedded_value_is_recorded.
Proof.
  simpl. split; [by vm_compute |].
  assert (ProcessLongOption "--color=blue" (Some "next")
            (snd ((install sample_options >> ParseArguments ["prog"; "--color=red"])
                    new_parser)) =
          (Throw MultipleInstances,
           snd ((install sample_options >> ParseArguments ["prog"; "--color=red"])
                  new_parser))) as E by (by vm_compute).
  split; [exact E |]. split; [by vm_compute |].
  intros H.
  specialize (H (snd ((install sample_options >> ParseArguments ["prog"; "--color=red"])
                        new_parser))
                "--" [] []
                [mkOption "all" "a" "all" false false;
                 mkOption "pattern" "p" "pattern" true true]
                (mkOption "color" "c" "color" false true)
                [mkOption "size" "s" "min-size" false true]
                "blue" (Some "next")).
  assert (Forall (fun o => passed_over false "=" "color=blue" o = true)
            [mkOption "all" "a" "all" false false;
             mkOption "pattern" "p" "pattern" true true]) as Hbefore.
  { apply Forall_cons_2; [reflexivity |].
    apply Forall_cons_2; [reflexivity | apply Forall_nil_2]. }
  specialize (H eq_refl (Forall_nil_2 _) eq_refl Hbefore).
  assert (("color" : string) <> "") as Hlong by discriminate.
  assert (("=" : string) <> "") as Hseparator by discriminate.
  assert (("blue" : string) <> "") as Hvalue by discriminate.
  specialize (H Hlong Hseparator eq_refl Hvalue).
  vm_compute in H. discriminate H.
Qed.

(** C5, amended: a long token made of a long flag, the long form of the
    descriptor the scan reaches, the (non-empty) configured separator and
    a text: unless the descriptor forbids repetition and its name is
    already recorded, in which case the store step raises the
    multiple-instances error and records nothing, the text is what is
    stored for the option and the following token is not consumed
    ([--color=red] gives color -> ["red"] and leaves the next token
    positional); an empty text after the separator raises an error, and
    so does a descriptor that expects no value. *)
Theorem C5_embedded_value :
  ((install sample_options >> ParseArguments ["prog"; "--color=red"; "next"]) new_parser =
   (Ok tt, with_option_map {[ "color" := ["red"]; "" := ["next"] ]}
             (snd (install sample_options new_parser))) /\
   fst ((install sample_options >> ParseArguments ["prog"; "--color="; "next"]) new_parser)
   = Throw MissingOptionArgument /\
   fst ((install sample_options >> ParseArguments ["prog"; "--all=yes"; "next"]) new_parser)
   = Throw MissingOptionArgument) /\
  (forall p flag earlier later before opt after value parameter,
      let separator := option_value_separator p in
      let span := long_option opt +:+ separator +:+ value in
      long_flags p = earlier ++ flag :: later ->
      Forall (fun f => ~ is_prefix f (flag +:+ span)) earlier ->
      options p = before ++ opt :: after ->
      Forall (fun o => passed_over (case_insensitive p) separator span o = true) before ->
      long_option opt <> "" ->
      separator <> "" ->
      ProcessLongOption (flag +:+ span) parameter p =
      if negb (parameter_expected opt) then (Throw MissingOptionArgument, p)
      else if empty value then (Throw MissingOptionArgument, p)
      else if bool_decide (is_Some (option_map p !! name opt))
              && negb (multiple_allowed opt)
      then (Throw MultipleInstances, p)
      else (Ok (true, false),
            with_option_map (emplace_back (name opt) value (option_map p)) p)).
Proof.
  split; [by vm_compute |].
  intros p flag earlier later before opt after value parameter separator span
         Hflags Hearlier Hopts Hbefore Hlong Hsep.
  assert (span <> "") as Hspan.
  { intros H. apply append_eq_empty in H as [? _]. done. }
  assert (flag +:+ span <> "") as Harg.
  { intros H. apply append_eq_empty in H as [_ ?]. done. }
  unfold ProcessLongOption.
  apply empty_false in Harg as Harg'. rewrite Harg', bind_gets, Hflags.
  rewrite FindOptionStart_first; [| done |].
  2:{ eapply Forall_impl; [exact Hearlier |]. intros f Hf r Hr.
      destruct Hf. by exists r. }
  apply empty_false in Hspan as Hspan'. rewrite Hspan', bind_gets, Hopts.
  unfold bind at 1.
  rewrite ProcessLongOption_loop_skip by done.
  unfold span, separator. rewrite ProcessLongOption_loop_value by done.
  destruct (parameter_expected opt) eqn:Eexpected; simpl; [| done].
  destruct (empty value); [done |].
  unfold bind, StoreOption, store, throw, ret. rewrite Eexpected. simpl.
  destruct (_ && _); done.
Qed.

(** The specification's example: [--color=red] under the default flags. *)
Lemma C5_embedded_value_witness :
  ProcessLongOption "--color=red" (Some "next") (snd (install sample_options new_parser)) =
  (Ok (true, false),
   with_option_map {[ "color" := ["red"] ]} (snd (install sample_options new_parser))).
Proof.
  pose proof (proj2 C5_embedded_value (snd (install sample_options new_parser))
                "--" [] []
                [mkOption "all" "a" "all" false false;
                 mkOption "pattern" "p" "pattern" true true]
                (mkOption "color" "c" "color" false true)
                [mkOption "size" "s" "min-size" false true]
                "red" (Some "next")) as H.
  simpl in H. apply H.
  - reflexivity.
  - constructor.
  - reflexivity.
  - repeat constructor.
  - discriminate.
  - discriminate.
Defined.

(** ** Short options *)

Lemma ProcessShortOption_find_spec opts user_option at_end parameter consumed p :
  ProcessShortOption_find opts user_option at_end parameter consumed p =
  match List.find (short_matches (case_insensitive p) user_option) opts with
  | None => (Ok (false, consumed), p)
  | Some opt =>
      if at_end then (let* c := StoreOption opt parameter in ret (true, c)) p
      else (StoreOption opt None >> ret (true, consumed)) p
  end.
Proof.
  induction opts as [| opt opts IH]; simpl; [done |].
  unfold short_matches at 1.
  destruct (empty (short_option opt)); simpl; [exact IH |].
  rewrite bind_gets. destruct (_ || _); [by destruct at_end | exact IH].
Qed.

Lemma StoreOption_absent opt p :
  parameter_expected opt = true ->
  StoreOption opt None p =
  (Throw (if bool_decide (is_Some (option_map p !! name opt))
             && negb (multiple_allowed opt)
          then MultipleInstances else MissingOptionArgument), p).
Proof.
  intros H. unfold StoreOption. rewrite H. simpl. by destruct (_ && _).
Qed.

Lemma ProcessShortOption_while_mid c after parameter consumed opt p :
  after <> "" ->
  List.find (short_matches (case_insensitive p) (String c "")) (options p) = Some opt ->
  ProcessShortOption_while (String c after) parameter consumed p =
  (StoreOption opt None >> ProcessShortOption_while after parameter consumed) p.
Proof.
  intros Hafter Hfind. simpl. rewrite bind_gets.
  unfold bind at 1. rewrite ProcessShortOption_find_spec, Hfind.
  apply empty_false in Hafter as ->.
  unfold bind. by destruct (StoreOption opt None p) as [[? | ? |] ?].
Qed.

Lemma ProcessShortOption_while_throws before c after parameter opt :
  after <> "" -> parameter_expected opt = true ->
  forall consumed p,
    List.find (short_matches (case_insensitive p) (String c "")) (options p) = Some opt ->
    exists e p',
      ProcessShortOption_while (before +:+ String c after) parameter consumed p =
      (Throw e, p').
Proof.
  intros Hafter Hexpected.
  induction before as [| b before IH]; intros consumed p Hfind.
  - simpl String.append.
    rewrite ProcessShortOption_while_mid with (opt := opt) by done.
    unfold bind. rewrite StoreOption_absent by done. eauto.
  - simpl. rewrite bind_gets. unfold bind at 1.
    rewrite ProcessShortOption_find_spec.
    assert (empty (before +:+ String c after) = false) as ->.
    { apply empty_false. intros H. by apply append_eq_empty in H as [_ ?]. }
    destruct (List.find (short_matches (case_insensitive p) (String b ""))
                        (options p)) as [o |]; [| eauto].
    pose proof (steady_StoreOption o None p) as ((Hopts & _ & _ & _ & Hci) & _).
    unfold bind.
    destruct (StoreOption o None p) as [[? | ? |] p1] eqn:E; simpl in *.
    + apply IH. by rewrite Hopts, Hci.
    + eauto.
    + unfold StoreOption in E.
      repeat (destruct (_ : bool) in E; try discriminate E).
Qed.

(** C4, as stated, fails: when the value-expecting option is single and
    already recorded, the store step's first check rejects the mid-bundle
    character with the multiple-instances error, not the missing-argument
    error. *)
Lemma C4_mid_bundle_repeated_option :
  let p := snd ((install sample_options >> ParseArguments ["prog"; "-s"; "1"]) new_parser) in
  ProcessShortOption "-sa" (Some "next") p = (Throw MultipleInstances, p) /\
  fst ((install sample_options >> ParseArguments ["prog"; "-s"; "1"; "-sa"; "next"])
         new_parser) = Throw MultipleInstances /\
  ~ mid_bundle_missing_argument.
Proof.
  simpl. split; [by vm_compute |]. split; [by vm_compute |].
  intros H.
  specialize (H (snd ((install sample_options >> ParseArguments ["prog"; "-s"; "1"])
                        new_parser))
                "s"%char "a" (Some "next") false
                (mkOption "size" "s" "min-size" false true)).
  assert (fst (ProcessShortOption_while "sa" (Some "next") false
                 (snd ((install sample_options >> ParseArguments ["prog"; "-s"; "1"])
                         new_parser))) = Throw MultipleInstances) as E
    by (by vm_compute).
  rewrite E in H. discriminate H; done.
Qed.

(** C4, amended: a bundle character that has further bundle characters
    after it and whose descriptor (the first one the character matches)
    expects a value is handed to the store step with an absent value,
    whatever token follows; matching raises nothing, the store step
    throws: the multiple-instances error when the descriptor is single and
    its name is already recorded, the missing-argument error otherwise.
    A bundle with such a character never completes, nor does the token
    that carries it. *)
Theorem C4_mid_bundle_value_option p c after parameter consumed opt :
  after <> "" ->
  List.find (short_matches (case_insensitive p) (String c "")) (options p) = Some opt ->
  parameter_expected opt = true ->
  let e := if bool_decide (is_Some (option_map p !! name opt))
              && negb (multiple_allowed opt)
           then MultipleInstances else MissingOptionArgument in
  ProcessShortOption_while (String c after) parameter consumed p =
    (StoreOption opt None >> ProcessShortOption_while after parameter consumed) p /\
  StoreOption opt None p = (Throw e, p) /\
  ProcessShortOption_while (String c after) parameter consumed p = (Throw e, p) /\
  (forall before, exists e' p',
      ProcessShortOption_while (before +:+ String c after) parameter consumed p =
      (Throw e', p')) /\
  (forall flag earlier later before,
      short_flags p = earlier ++ flag :: later ->
      Forall (fun f => ~ is_prefix f (flag +:+ before +:+ String c after)) earlier ->
      exists e' p',
        ProcessShortOption (flag +:+ before +:+ String c after) parameter p =
        (Throw e', p')).
Proof.
  intros Hafter Hfind Hexpected e.
  pose proof (ProcessShortOption_while_mid c after parameter consumed opt p
                Hafter Hfind) as Hmid.
  pose proof (StoreOption_absent opt p Hexpected) as Hstore.
  split; [exact Hmid |]. split; [exact Hstore |]. split; [| split].
  - rewrite Hmid. unfold bind. by rewrite Hstore.
  - intros before. by eapply ProcessShortOption_while_throws.
  - intros flag earlier later before Hflags Hearlier.
    assert (before +:+ String c after <> "") as Hrest.
    { intros H. by apply append_eq_empty in H as [_ ?]. }
    assert (flag +:+ before +:+ String c after <> "") as Harg.
    { intros H. by apply append_eq_empty in H as [_ ?]. }
    unfold ProcessShortOption.
    apply empty_false in Harg as Harg'. rewrite Harg', bind_gets, Hflags.
    rewrite FindOptionStart_first; [| done |].
    2:{ eapply Forall_impl; [exact Hearlier |]. intros f Hf r Hr.
        destruct Hf. by exists r. }
    apply empty_false in Hrest as ->. unfold bind.
    destruct (ProcessShortOption_while_throws before c after parameter opt
                Hafter Hexpected false p Hfind) as (e' & p' & ->).
    eauto.
Qed.

(** The bundle [-pa] of the sample specification with a token after it:
    [p] expects a value and is not last. *)
Lemma C4_mid_bundle_value_option_witness :
  ProcessShortOption_while "pa" (Some "PATTERN") false
    (snd (install sample_options new_parser)) =
  (Throw MissingOptionArgument, snd (install sample_options new_parser)).
Proof.
  refine (proj1 (proj2 (proj2
    (C4_mid_bundle_value_option (snd (install sample_options new_parser))
       "p"%char "a" (Some "PATTERN") false
       (mkOption "pattern" "p" "pattern" true true) _ _ _)))).
  - discriminate.
  - reflexivity.
  - reflexivity.
Defined.

(** ** Case-insensitive matching *)




Lemma stateless_bind {A B} (m : M A) (f : A -> M B) :
  stateless m -> (forall a, stateless (f a)) -> stateless (bind m f).
Proof.
  intros Hm Hf p q. unfold bind. specialize (Hm p q).
  destruct (m p) as [[a | e |] p'], (m q) as [[a' | e' |] q'];
    simpl in *; try congruence.
  injection Hm as ->. apply Hf.
Qed.

Lemma stateless_CheckOptionFlags_long longs shorts :
  stateless (CheckOptionFlags_long longs shorts).
Proof.
  induction longs as [| long_flag longs IH]; simpl; [done |].
  apply stateless_bind; [| done].
  clear IH. induction shorts as [| short_flag shorts IH]; simpl; [done |].
  by destruct (_ =? _)%string.
Qed.

Lemma stateless_CheckOptions_loop opts ids shorts longs :
  stateless (CheckOptions_loop opts ids shorts longs).
Proof.
  revert ids shorts longs. induction opts as [| opt opts IH]; intros; simpl; [done |].
  repeat first
    [ done
    | apply IH
    | apply stateless_bind; [ | intros ? ]
    | match goal with |- stateless (if ?b then _ else _) => destruct b end ].
Qed.

(** The outcome of [SetOptions] is that of the two checks on its
    arguments. *)
Lemma SetOptions_outcome opts shorts longs separator ci p q :
  fst (SetOptions opts shorts longs separator ci p) =
  fst ((CheckOptionFlags_long longs shorts >> CheckOptions_loop opts ∅ ∅ ∅) q).
Proof.
  unfold SetOptions.
  set (p1 := mkParser opts shorts longs separator ci ∅).
  change (fst ((CheckOptionFlags >> CheckOptions) p1) =
          fst ((CheckOptionFlags_long longs shorts >> CheckOptions_loop opts ∅ ∅ ∅) q)).
  pose proof (readonly_CheckOptionFlags p1) as Hro.
  pose proof (stateless_CheckOptionFlags_long longs shorts p1 q) as Hst.
  unfold bind.
  change (CheckOptionFlags p1) with (CheckOptionFlags_long longs shorts p1) in *.
  destruct (CheckOptionFlags_long longs shorts p1) as [r1 p2],
           (CheckOptionFlags_long longs shorts q) as [r2 q2].
  simpl in Hro, Hst. subst p2 r2.
  destruct r1 as [[] | e |]; [| done | done].
  change (CheckOptions p1) with (CheckOptions_loop opts ∅ ∅ ∅ p1).
  apply stateless_CheckOptions_loop.
Qed.



(** ** Numeric retrieval *)

Lemma GetOptionValues_loop_ok convert min max options_strings option_values values :
  GetOptionValues_loop convert min max options_strings option_values = inr values <->
  exists converted,
    values = option_values ++ converted /\
    Forall2 (accepted convert min max) options_strings converted.
Proof.
  revert option_values.
  induction options_strings as [| s rest IH]; intros option_values; simpl.
  - split.
    + intros [= <-]. exists []. by rewrite app_nil_r.
    + intros (converted & -> & H). inversion H. by rewrite app_nil_r.
  - split.
    + destruct (convert s) as [e | v] eqn:Es; [discriminate |].
      destruct (_ || _) eqn:Erange; [discriminate |].
      intros H. apply IH in H as (converted & -> & Hrest).
      exists (v :: converted). split; [by rewrite <- app_assoc |].
      constructor; [| done]. split; [done |].
      apply orb_false_iff in Erange as [? ?]. lia.
    + intros (converted & -> & H).
      inversion H as [| ? v ? converted' [Hs Hrange] Hrest]; subst.
      rewrite Hs.
      assert ((v <? min)%Z || (v >? max)%Z = false) as ->
        by (apply orb_false_iff; lia).
      apply IH. exists converted'. split; [by rewrite <- app_assoc | done].
Qed.

Lemma GetOptionValues_loop_rejected convert min max options_strings :
  Exists (rejected convert min max) options_strings ->
  forall option_values,
    exists e, GetOptionValues_loop convert min max options_strings option_values = inl e.
Proof.
  unfold rejected.
  induction 1 as [s rest Hs | s rest _ IH]; intros option_values; simpl.
  - destruct (convert s) as [e | v]; [eauto |].
    assert ((v <? min)%Z || (v >? max)%Z = true) as -> by (apply orb_true_iff; lia).
    eauto.
  - destruct (convert s) as [e | v]; [eauto |].
    destruct (_ || _); eauto.
Qed.

Lemma GetOptionValues_generic_ok option_name convert min max p values :
  GetOptionValues_generic option_name convert min max p = Ok values <->
  exists options_strings,
    option_map p !! option_name = Some options_strings /\
    Forall2 (accepted convert min max) options_strings values.
Proof.
  unfold GetOptionValues_generic, FindOptionStrings.
  destruct (option_map p !! option_name) as [strs |]; [| split; [done | by intros (? & ? & _)]].
  pose proof (GetOptionValues_loop_ok convert min max strs []) as H.
  destruct (GetOptionValues_loop convert min max strs []) as [e | vs].
  - split; [done |]. intros (? & [= <-] & HF).
    assert (inl e = inr values :> std_exception + list Z) as Habs; [| done].
    apply H. by exists values.
  - split.
    + intros [= <-]. exists strs. split; [done |].
      by destruct (proj1 (H vs) eq_refl) as (? & -> & ?).
    + intros (? & [= <-] & HF). f_equal.
      assert (inr vs = inr values :> std_exception + list Z) as [= ->]; [| done].
      apply H. by exists values.
Qed.

Lemma unsigned_accepted min max s v :
  (0 <= min)%Z -> (max <= 2 ^ 32 - 1)%Z ->
  accepted (@converter unsigned_T min max) min max s v <->
  accepted stoul min max s v.
Proof.
  intros Hmin Hmax. unfold accepted. simpl. unfold checked, cast_unsigned, int_bits.
  destruct (stoul s) as [e | i]; [by split; intros [? ?] |].
  destruct ((i <? min)%Z || (i >? max)%Z) eqn:E.
  - apply orb_true_iff in E. split; [by intros [? ?] |].
    intros [[= ->] ?]. lia.
  - apply orb_false_iff in E as [? ?].
    rewrite Z.mod_small by lia. done.
Qed.

(** C7: "200" recorded for [size] and retrieved as [unsigned] is a value
    error under the bounds [0,99] and the value 200 under [0,999]; for
    every integral type retrieval succeeds exactly when the type's
    converter accepts every recorded string with a value inside
    [[min, max]], and then returns those values; for [unsigned] that is
    when every recorded string converts with [std::stoul] to a value [v]
    with [min <= v <= max], both ends included, and retrieval is a value
    error otherwise. *)
Theorem C7_inclusive_bounds :
  (let p := snd ((install sample_options >> ParseArguments ["prog"; "-s"; "200"])
                   new_parser) in
   option_map p !! "size" = Some ["200"] /\
   GetOptionValue unsigned_T "size" 0 99 p = Throw OptionValueError /\
   GetOptionValue unsigned_T "size" 0 999 p = Ok 200%Z /\
   GetOptionValue unsigned_T "size" 200 999 p = Ok 200%Z /\
   GetOptionValue unsigned_T "size" 0 200 p = Ok 200%Z /\
   GetOptionValue unsigned_T "size" 0 199 p = Throw OptionValueError /\
   GetOptionValue unsigned_T "size" 201 999 p = Throw OptionValueError) /\
  (forall (T : NumericType) option_name min max p values,
      (GetOptionValues T option_name min max p = Ok values <->
       exists options_strings,
         option_map p !! option_name = Some options_strings /\
         Forall2 (accepted (converter min max) min max) options_strings values) /\
      (GetOptionValues T option_name min max p = Ok values ->
       Forall (fun v => (min <= v <= max)%Z) values)) /\
  (forall option_name min max p options_strings,
      (0 <= min)%Z -> (max <= 2 ^ 32 - 1)%Z ->
      option_map p !! option_name = Some options_strings ->
      (forall values,
          GetOptionValues unsigned_T option_name min max p = Ok values <->
          Forall2 (accepted stoul min max) options_strings values) /\
      ((forall values, ~ Forall2 (accepted stoul min max) options_strings values) ->
       GetOptionValues unsigned_T option_name min max p = Throw OptionValueError)).
Proof.
  split; [by vm_compute |]. split.
  - intros T option_name min max p values.
    split; [apply GetOptionValues_generic_ok |]. intros H.
    apply GetOptionValues_generic_ok in H as (strs & _ & HF).
    induction HF as [| s v strs values [_ Hv] _ IH]; constructor; done.
  - intros option_name min max p strs Hmin Hmax Hstrs.
    assert (forall values,
               Forall2 (accepted (@converter unsigned_T min max) min max) strs values <->
               Forall2 (accepted stoul min max) strs values) as Hequiv.
    { intros values.
      split; intros HF; (eapply Forall2_impl; [exact HF |]); intros s v;
        by apply unsigned_accepted. }
    split.
    + intros values. unfold GetOptionValues. rewrite GetOptionValues_generic_ok.
      rewrite <- Hequiv. split.
      * intros (strs' & Hstrs' & HF). rewrite Hstrs in Hstrs'.
        by injection Hstrs' as <-.
      * intros ?. by exists strs.
    + intros Hnone. unfold GetOptionValues, GetOptionValues_generic, FindOptionStrings.
      rewrite Hstrs.
      destruct (GetOptionValues_loop _ min max strs []) as [e | vs] eqn:E; [done |].
      apply GetOptionValues_loop_ok in E as (converted & -> & HF).
      destruct (Hnone converted). by apply Hequiv.
Qed.

(** The specification's example, through the general statement. *)
Lemma C7_inclusive_bounds_witness :
  let p := with_option_map {[ "size" := ["200"] ]} new_parser in
  GetOptionValues unsigned_T "size" 0 999 p = Ok [200%Z] /\
  GetOptionValues unsigned_T "size" 0 200 p = Ok [200%Z] /\
  Forall (fun v => (0 <= v <= 999)%Z) [200%Z].
Proof.
  simpl.
  pose proof (proj2 (proj2 C7_inclusive_bounds) "size" 0%Z 999%Z
                (with_option_map {[ "size" := ["200"] ]} new_parser) ["200"]) as H1.
  pose proof (proj2 (proj2 C7_inclusive_bounds) "size" 0%Z 200%Z
                (with_option_map {[ "size" := ["200"] ]} new_parser) ["200"]) as H2.
  pose proof (proj2 (proj1 (proj2 C7_inclusive_bounds) unsigned_T "size" 0%Z 999%Z
                (with_option_map {[ "size" := ["200"] ]} new_parser) [200%Z])) as H3.
  split; [| split].
  - apply H1; [lia | lia | reflexivity |].
    constructor; [split; [reflexivity | lia] | constructor].
  - apply H2; [lia | lia | reflexivity |].
    constructor; [split; [reflexivity | lia] | constructor].
  - apply H3. reflexivity.
Defined.

(** C10: singular retrieval runs the plural one first, so every recorded
    value of the option is converted and checked against [[min, max]]: if
    any of them, also a later one, is refused or out of bounds, the
    retrieval is a value error; when it succeeds it returns the first
    converted value, all the others having been accepted as well. *)
Theorem C10_singular_checks_all :
  (let p := snd ((install sample_options >>
                  ParseArguments ["prog"; "-p"; "5"; "-p"; "abc"]) new_parser) in
   let q := snd ((install sample_options >>
                  ParseArguments ["prog"; "-p"; "5"; "-p"; "50"; "-p"; "7"]) new_parser) in
   option_map p !! "pattern" = Some ["5"; "abc"] /\
   GetOptionValue unsigned_T "pattern" 0 9 p = Throw OptionValueError /\
   GetOptionValue int_T "pattern" 0 9 p = Throw OptionValueError /\
   option_map q !! "pattern" = Some ["5"; "50"; "7"] /\
   GetOptionValue unsigned_T "pattern" 0 9 q = Throw OptionValueError /\
   GetOptionValue unsigned_T "pattern" 0 99 q = Ok 5%Z) /\
  (forall (T : NumericType) option_name min max p options_strings,
      option_map p !! option_name = Some options_strings ->
      (Exists (rejected (converter min max) min max) options_strings ->
       GetOptionValue T option_name min max p = Throw OptionValueError) /\
      (forall v,
          GetOptionValue T option_name min max p = Ok v ->
          exists first others,
            options_strings = first :: others /\
            converter min max first = inr v /\
            Forall (fun s => exists v', accepted (converter min max) min max s v')
                   options_strings)).
Proof.
  split; [by vm_compute |].
  intros T option_name min max p strs Hstrs. split.
  - intros Hrejected.
    unfold GetOptionValue, GetOptionValues, GetOptionValues_generic, FindOptionStrings.
    rewrite Hstrs.
    by destruct (GetOptionValues_loop_rejected _ _ _ _ Hrejected []) as [e ->].
  - intros v H. unfold GetOptionValue in H.
    destruct (GetOptionValues T option_name min max p) as [values | e |] eqn:E;
      [| done | done].
    unfold GetOptionValues in E.
    apply GetOptionValues_generic_ok in E as (strs' & Hstrs' & HF).
    rewrite Hstrs in Hstrs'. injection Hstrs' as <-.
    destruct HF as [| s v0 rest values' [Hs Hv] HF]; [done |].
    injection H as ->. exists s, rest. split; [done |]. split; [done |].
    constructor; [by exists v; split |].
    clear -HF. induction HF as [| s' v' ? ? Hsv _ IH]; constructor; eauto.
Qed.

(** Two recorded values, the second one not a number. *)
Lemma C10_singular_checks_all_witness :
  GetOptionValue unsigned_T "pattern" 0 9
    (with_option_map {[ "pattern" := ["5"; "abc"] ]} new_parser) =
  Throw OptionValueError.
Proof.
  pose proof (proj2 C10_singular_checks_all unsigned_T "pattern" 0%Z 9%Z
                (with_option_map {[ "pattern" := ["5"; "abc"] ]} new_parser)
                ["5"; "abc"]) as H.
  apply H; [reflexivity |].
  apply Exists_cons_tl, Exists_cons_hd. exact I.
Defined.

(** ** The validator *)

Lemma unseen_cons seen key keys :
  unseen seen (key :: keys) <->
  seen !! key = None /\ unseen (<[key := true]> seen) keys.
Proof.
  unfold unseen. rewrite NoDup_cons. split.
  - intros [[Hkey Hnodup] Hall]. split; [apply Hall; by left |].
    split; [done |]. intros key' Hin.
    rewrite lookup_insert_ne; [apply Hall; by right |].
    intros ->. done.
  - intros [Hkey [Hnodup Hall]]. split; [split; [| done] |].
    + intros Hin. specialize (Hall key Hin). by rewrite lookup_insert_eq in Hall.
    + intros key' Hin. apply elem_of_cons in Hin as [-> | Hin]; [done |].
      specialize (Hall key' Hin).
      destruct (decide (key = key')) as [-> | Hne].
      * by rewrite lookup_insert_eq in Hall.
      * by rewrite lookup_insert_ne in Hall.
Qed.

Lemma is_Some_None_false {A} (o : option A) :
  bool_decide (is_Some o) = false <-> o = None.
Proof.
  rewrite bool_decide_eq_false. destruct o; split; try done.
  intros H. destruct H. eauto.
Qed.

Lemma CheckOptionFlags_short_ok long_flag shorts p :
  fst (CheckOptionFlags_short long_flag shorts p) = Ok tt <-> long_flag ∉ shorts.
Proof.
  induction shorts as [| short_flag shorts IH]; simpl.
  - split; [intros _ H; by apply elem_of_nil in H | done].
  - rewrite not_elem_of_cons.
    destruct (String.eqb_spec long_flag short_flag) as [-> | Hne]; simpl.
    + split; [done | by intros [? _]].
    + rewrite IH. tauto.
Qed.

Lemma CheckOptionFlags_long_ok longs shorts p :
  fst (CheckOptionFlags_long longs shorts p) = Ok tt <->
  forall flag, flag ∈ longs -> flag ∉ shorts.
Proof.
  induction longs as [| long_flag longs IH]; simpl.
  - split; [intros _ flag H; by apply elem_of_nil in H | done].
  - unfold bind.
    pose proof (CheckOptionFlags_short_ok long_flag shorts p) as Hshort.
    assert (snd (CheckOptionFlags_short long_flag shorts p) = p) as Hsame.
    { clear. induction shorts as [| s shorts IH]; simpl; [done |].
      by destruct (_ =? _)%string. }
    destruct (CheckOptionFlags_short long_flag shorts p) as [[[] | e |] p'];
      simpl in *; subst.
    + rewrite IH. split.
      * intros Hall flag Hin. apply elem_of_cons in Hin as [-> | Hin]; [| by apply Hall].
        by apply Hshort.
      * intros Hall flag Hin. apply Hall. by right.
    + split; [done |]. intros Hall.
      assert (Throw e = Ok tt :> result unit); [| done].
      apply Hshort, Hall. by left.
    + split; [done |]. intros Hall.
      assert (Undefined = Ok tt :> result unit); [| done].
      apply Hshort, Hall. by left.
Qed.

Lemma CheckOptions_loop_ok opts identifiers short_options long_options p :
  fst (CheckOptions_loop opts identifiers short_options long_options p) = Ok tt <->
  Forall (fun o => name o <> "") opts /\
  Forall (fun o => String.length (short_option o) <= 1) opts /\
  unseen identifiers (map name opts) /\
  unseen short_options (nonempties (map short_option opts)) /\
  unseen long_options (nonempties (map long_option opts)).
Proof.
  revert identifiers short_options long_options.
  induction opts as [| opt opts IH]; intros identifiers short_options long_options.
  - simpl. split; [| done]. intros _.
    repeat split; try constructor; intros key H; by apply elem_of_nil in H.
  - simpl CheckOptions_loop. cbn [map nonempties List.filter].
    rewrite !Forall_cons, unseen_cons.
    destruct (empty (name opt)) eqn:Ename.
    { apply empty_true in Ename. split; [done | tauto]. }
    apply empty_false in Ename.
    destruct (bool_decide (is_Some (identifiers !! name opt))) eqn:Eid.
    { apply bool_decide_eq_true in Eid as [b Eid]. rewrite Eid.
      split; [done | intros (_ & _ & [? _] & _); done]. }
    apply is_Some_None_false in Eid.
    destruct (empty (short_option opt)) eqn:Eshort;
      destruct (empty (long_option opt)) eqn:Elong; simpl negb; cbv iota;
      unfold bind at 1; simpl;
      try (apply empty_true in Eshort as Eshort'; rewrite Eshort');
      rewrite ?unseen_cons.
    + unfold bind at 1; simpl. rewrite IH. simpl. intuition lia.
    + unfold bind at 1.
      destruct (bool_decide (is_Some (long_options !! long_option opt))) eqn:El; simpl.
      { apply bool_decide_eq_true in El as [b El]. rewrite El.
        split; [done | intros (_ & _ & _ & _ & [? _]); done]. }
      apply is_Some_None_false in El. rewrite IH. simpl. intuition lia.
    + destruct (bool_decide (is_Some (short_options !! short_option opt))) eqn:Es; simpl.
      { apply bool_decide_eq_true in Es as [b Es]. rewrite Es.
        split; [done | intros (_ & _ & _ & [? _] & _); done]. }
      apply is_Some_None_false in Es.
      destruct (1 <? String.length (short_option opt))%nat eqn:Elen; simpl.
      { apply Nat.ltb_lt in Elen. split; [done | intros (_ & [? _] & _); lia]. }
      apply Nat.ltb_ge in Elen.
      unfold bind at 1; simpl. rewrite IH. intuition.
    + destruct (bool_decide (is_Some (short_options !! short_option opt))) eqn:Es; simpl.
      { apply bool_decide_eq_true in Es as [b Es]. rewrite Es.
        split; [done | intros (_ & _ & _ & [? _] & _); done]. }
      apply is_Some_None_false in Es.
      destruct (1 <? String.length (short_option opt))%nat eqn:Elen; simpl.
      { apply Nat.ltb_lt in Elen. split; [done | intros (_ & [? _] & _); lia]. }
      apply Nat.ltb_ge in Elen.
      unfold bind at 1.
      destruct (bool_decide (is_Some (long_options !! long_option opt))) eqn:El; simpl.
      { apply bool_decide_eq_true in El as [b El]. rewrite El.
        split; [done | intros (_ & _ & _ & _ & [? _]); done]. }
      apply is_Some_None_false in El. rewrite IH. intuition.
Qed.

(** [SetOptions] succeeds exactly on the specifications the contract
    admits. *)
Lemma SetOptions_validates opts shorts longs separator ci p :
  fst (SetOptions opts shorts longs separator ci p) = Ok tt <->
  valid_specification opts shorts longs.
Proof.
  rewrite (SetOptions_outcome _ _ _ _ _ p p). unfold bind.
  pose proof (CheckOptionFlags_long_ok longs shorts p) as Hflags.
  pose proof (CheckOptions_loop_ok opts ∅ ∅ ∅) as Hopts.
  unfold valid_specification, unseen in *.
  destruct (CheckOptionFlags_long longs shorts p) as [[[] | e |] p'] eqn:E; simpl in *.
  - rewrite Hopts. split.
    + intros (? & ? & [? _] & [? _] & [? _]). repeat split; try done. by apply Hflags.
    + intros (? & ? & ? & ? & ? & ?). by repeat split.
  - split; [done |]. intros (_ & _ & _ & _ & _ & H).
    assert (Throw e = Ok tt :> result unit); [by apply Hflags | done].
  - split; [done |]. intros (_ & _ & _ & _ & _ & H).
    assert (Undefined = Ok tt :> result unit); [by apply Hflags | done].
Qed.

(** C3 (the code departs from it): the constructor that takes the
    options and flags runs no check and returns a parser for every
    argument, also for a specification with an empty name, which
    [SetOptions] refuses; [SetOptions] itself succeeds exactly on the
    specifications free of the six violations. *)
Theorem C3_constructor_runs_no_validation :
  (forall opts shorts longs separator ci,
      Parser_ctor opts shorts longs separator ci =
      Ok (mkParser opts shorts longs separator ci ∅)) /\
  (~ valid_specification nameless_options default_short_flags default_long_flags /\
   Parser_ctor nameless_options default_short_flags default_long_flags
               default_option_value_separator default_case_insensitive =
   Ok (mkParser nameless_options default_short_flags default_long_flags
                default_option_value_separator default_case_insensitive ∅) /\
   fst (install nameless_options new_parser) = Throw EmptyIdentifierName /\
   Parser_ctor sample_options ["-"] ["-"] "=" false =
   Ok (mkParser sample_options ["-"] ["-"] "=" false ∅) /\
   fst (SetOptions sample_options ["-"] ["-"] "=" false new_parser) = Throw FlagConflict) /\
  (forall opts shorts longs separator ci p,
      fst (SetOptions opts shorts longs separator ci p) = Ok tt <->
      valid_specification opts shorts longs).
Proof.
  split; [done |]. split; [| apply SetOptions_validates].
  split; [| by vm_compute].
  intros (H & _). inversion H as [| ? ? Hname _]. by apply Hname.
Qed.

(** * Further properties of the parser *)

(** ** Store steps *)

Lemma store_step_config p p' : store_step p p' -> same_config p p'.
Proof.
  intros [token | opt parameter consumed p1 _ H]; [done |].
  pose proof (steady_StoreOption opt parameter p) as [Hc _].
  by rewrite H in Hc.
Qed.

Lemma store_steps_config p p' : rtc store_step p p' -> same_config p p'.
Proof.
  induction 1 as [| p p1 p2 Hstep _ IH]; [done |].
  apply store_step_config in Hstep.
  destruct Hstep as (? & ? & ? & ? & ?), IH as (? & ? & ? & ? & ?).
  repeat split; congruence.
Qed.

Lemma store_steps_invariant (I : Parser -> Prop) p p' :
  (forall q q', store_step q q' -> I q -> I q') ->
  rtc store_step p p' -> I p -> I p'.
Proof. intros Hstep. induction 1; eauto. Qed.

Lemma follows_weaken {A} p (Q Q' : A -> Parser -> Prop) rp :
  (forall a p', Q a p' -> Q' a p') -> follows p Q rp -> follows p Q' rp.
Proof. destruct rp as [[a | e |] p']; simpl; intuition. Qed.

Lemma follows_from {A} p p1 (Q : A -> Parser -> Prop) rp :
  rtc store_step p p1 -> follows p1 Q rp -> follows p Q rp.
Proof.
  intros Hp. destruct rp as [[a | e |] p']; simpl; [| | done];
    intros [H ?]; (split; [| done]); by etrans.
Qed.

Lemma follows_bind {A B} p (R : A -> Parser -> Prop) (Q : B -> Parser -> Prop)
  (m : M A) (f : A -> M B) :
  follows p R (m p) ->
  (forall a p1, rtc store_step p p1 -> R a p1 -> follows p1 Q (f a p1)) ->
  follows p Q (bind m f p).
Proof.
  intros Hm Hf. unfold bind.
  destruct (m p) as [[a | e |] p1]; simpl in Hm; [| done | done].
  destruct Hm as [Hsteps Ha]. eapply follows_from; [exact Hsteps |]. by apply Hf.
Qed.

Lemma follows_throw {A} p (Q : A -> Parser -> Prop) e :
  parse_error e -> follows p Q (@throw A e p).
Proof. by split. Qed.

Lemma follows_positional p token :
  follows p (fun _ _ => True) (store "" token p).
Proof. split; [| done]. apply rtc_once. constructor. Qed.

Lemma follows_StoreOption opt parameter p :
  opt ∈ options p ->
  follows p (fun consumed p' => consumed = true -> recorded_last parameter p')
          (StoreOption opt parameter p).
Proof.
  intros Hin.
  destruct (StoreOption opt parameter p) as [[consumed | e |] p'] eqn:E; simpl.
  - split; [apply rtc_once; by econstructor |].
    intros ->. unfold StoreOption in E.
    destruct (_ && _); [discriminate E |].
    destruct (parameter_expected opt) eqn:Eexpected; [| discriminate E].
    destruct parameter as [value |]; [| discriminate E].
    injection E as <-. exists value, opt, (default [] (option_map p !! name opt)).
    repeat split; try done. simpl. apply emplace_back_lookup.
  - unfold StoreOption in E. unfold parse_error.
    destruct (_ && _); [injection E as <- <-; split; [done | tauto] |].
    destruct (negb _); [discriminate E |].
    destruct parameter; [discriminate E |].
    injection E as <- <-. split; [done | tauto].
  - unfold StoreOption in E.
    destruct (_ && _); [discriminate E |].
    destruct (negb _); [discriminate E |].
    destruct parameter; discriminate E.
Qed.

Lemma follows_ProcessLongOption_loop opts span parameter p :
  (forall o, o ∈ opts -> o ∈ options p) ->
  follows p (fun r p' => snd r = true -> recorded_last parameter p')
          (ProcessLongOption_loop opts span parameter p).
Proof.
  induction opts as [| opt opts IH]; intros Hincl; simpl.
  { split; done. }
  assert (follows p (fun r p' => snd r = true -> recorded_last parameter p')
            (ProcessLongOption_loop opts span parameter p)) as Hrest.
  { apply IH. intros o Ho. apply Hincl. by right. }
  assert (opt ∈ options p) as Hopt by (apply Hincl; by left).
  destruct (empty (long_option opt)); [done |].
  rewrite bind_gets.
  destruct (long_option_match _ _ _ _) as [matched rest].
  destruct (matched <? _)%nat; [done |].
  destruct (empty rest).
  - eapply follows_bind; [by apply follows_StoreOption |].
    intros consumed p1 _ Hc. split; done.
  - rewrite bind_gets.
    destruct (FindStringStart _ rest) as [[] value]; [| done].
    destruct (negb _); [apply follows_throw; unfold parse_error; tauto |].
    destruct (empty value); [apply follows_throw; unfold parse_error; tauto |].
    eapply follows_bind; [by apply follows_StoreOption |].
    intros consumed p1 _ _. split; done.
Qed.

Lemma follows_ProcessLongOption argument parameter p :
  follows p (fun r p' => snd r = true -> recorded_last parameter p')
          (ProcessLongOption argument parameter p).
Proof.
  unfold ProcessLongOption.
  destruct (empty argument); [split; done |].
  rewrite bind_gets.
  destruct (FindOptionStart _ argument) as [span |]; [| split; done].
  destruct (empty span).
  - eapply follows_bind; [apply follows_positional |].
    intros [] p1 _ _. split; done.
  - rewrite bind_gets.
    eapply follows_bind; [by apply follows_ProcessLongOption_loop |].
    intros [matched consumed] p1 _ Hc.
    destruct matched; [split; done |].
    apply follows_throw. unfold parse_error. tauto.
Qed.

Lemma follows_ProcessShortOption_find opts user_option at_end parameter consumed p :
  (forall o, o ∈ opts -> o ∈ options p) ->
  follows p (fun r p' => snd r = true ->
                         consumed = true \/
                         (at_end = true /\ recorded_last parameter p'))
          (ProcessShortOption_find opts user_option at_end parameter consumed p).
Proof.
  intros Hincl. rewrite ProcessShortOption_find_spec.
  destruct (List.find _ opts) as [opt |] eqn:E; [| split; [done | auto]].
  apply find_some in E as [Hin _].
  assert (opt ∈ options p) as Hopt by (by apply Hincl, list_elem_of_In).
  destruct at_end.
  - eapply follows_bind; [by apply follows_StoreOption |].
    intros c p1 _ Hc. split; [done |]. simpl. auto.
  - eapply follows_bind; [by apply follows_StoreOption |].
    intros c p1 _ _. split; [done |]. simpl. auto.
Qed.

Lemma follows_ProcessShortOption_while rest parameter consumed p :
  follows p (fun r p' => r = true -> consumed = true \/ recorded_last parameter p')
          (ProcessShortOption_while rest parameter consumed p).
Proof.
  revert consumed p. induction rest as [| c rest IH]; intros consumed p; simpl.
  { split; [done | auto]. }
  rewrite bind_gets.
  eapply follows_bind; [by apply follows_ProcessShortOption_find |].
  intros [matched consumed'] p1 _ Hc. simpl in Hc.
  destruct matched; [| apply follows_throw; unfold parse_error; tauto].
  destruct consumed'.
  - destruct (Hc eq_refl) as [-> | [Hend Hlast]].
    + eapply follows_weaken; [| apply IH]. simpl. auto.
    + apply empty_true in Hend as ->. simpl. split; [done | auto].
  - eapply follows_weaken; [| apply IH]. simpl.
    intros r p' Hr Hrt. destruct (Hr Hrt); [done | auto].
Qed.

Lemma follows_ProcessShortOption argument parameter p :
  follows p (fun r p' => snd r = true -> recorded_last parameter p')
          (ProcessShortOption argument parameter p).
Proof.
  unfold ProcessShortOption.
  destruct (empty argument); [split; done |].
  rewrite bind_gets.
  destruct (FindOptionStart _ argument) as [rest |]; [| split; done].
  destruct (empty rest).
  - eapply follows_bind; [apply follows_positional |].
    intros [] p1 _ _. split; done.
  - eapply follows_bind; [apply follows_ProcessShortOption_while |].
    intros consumed p1 _ Hc. split; [done |]. simpl.
    intros ->. by destruct (Hc eq_refl).
Qed.

Lemma follows_ProcessArgument argument parameter p :
  follows p (fun consumed p' => consumed = true -> recorded_last parameter p')
          (ProcessArgument argument parameter p).
Proof.
  unfold ProcessArgument.
  assert (forall q, follows q (fun consumed p' =>
                                 consumed = true -> recorded_last parameter p')
                      ((store "" argument >> ret false) q)) as Hpositional.
  { intros q. eapply follows_bind; [apply follows_positional |].
    intros [] p1 _ _. split; done. }
  destruct (negb (empty argument)); [| apply Hpositional].
  eapply follows_bind; [apply follows_ProcessLongOption |].
  intros [matched consumed] p1 _ Hc.
  destruct matched; [split; done |].
  eapply follows_bind; [apply follows_ProcessShortOption |].
  intros [matched' consumed'] p2 _ Hc'.
  destruct matched'; [split; done | apply Hpositional].
Qed.

Lemma follows_ParseArguments_loop arguments p :
  follows p (fun _ _ => True) (ParseArguments_loop arguments p).
Proof.
  enough ((forall p, follows p (fun _ _ => True) (ParseArguments_loop arguments p)) /\
          (forall p, follows p (fun _ _ => True)
                       (ParseArguments_loop (tail arguments) p))) as [H _]
    by apply H.
  clear p. induction arguments as [| argument following [IH IHtail]]; simpl.
  - split; intros p; split; done.
  - split; [| exact IH]. intros p.
    eapply follows_bind; [apply follows_ProcessArgument |].
    intros consumed p1 _ _. destruct consumed; [| apply IH].
    destruct following; [split; done | apply IHtail].
Qed.

Lemma follows_ParseArguments arguments p :
  follows p (fun _ _ => True) (ParseArguments arguments p).
Proof.
  unfold ParseArguments. destruct (_ <=? _)%nat; [split; done |].
  apply follows_ParseArguments_loop.
Qed.

(** ** Outcomes of a parse *)



(** X2: a token reports the following token as consumed only when there
    is a following token, and then that token is the last value recorded
    for a descriptor of the specification that expects a value; so the
    loop of [ParseArguments] never skips past the end of the arguments. *)
Theorem ProcessArgument_consumes_what_it_records argument parameter p p' :
  ProcessArgument argument parameter p = (Ok true, p') ->
  exists value opt values,
    parameter = Some value /\ opt ∈ options p /\ parameter_expected opt = true /\
    option_map p' !! name opt = Some (values ++ [value]).
Proof.
  intros H. pose proof (follows_ProcessArgument argument parameter p) as Hf.
  rewrite H in Hf. destruct Hf as [Hsteps Hlast].
  destruct (Hlast eq_refl) as (value & opt & values & ? & Hin & ? & ?).
  exists value, opt, values. repeat split; try done.
  apply store_steps_config in Hsteps as [<- _]. done.
Qed.

Lemma ProcessArgument_consumes_what_it_records_witness :
  let p := snd (install sample_options new_parser) in
  let p' := with_option_map {[ "size" := ["20"] ]} p in
  exists value opt values,
    Some "20" = Some value /\ opt ∈ options p /\ parameter_expected opt = true /\
    option_map p' !! name opt = Some (values ++ [value]).
Proof.
  intros p p'.
  apply (ProcessArgument_consumes_what_it_records "-s" (Some "20") p p').
  by vm_compute.
Defined.

Lemma ParseArguments_as_loop arguments p :
  ParseArguments arguments p = ParseArguments_loop (tail arguments) p.
Proof. destruct arguments as [| a [| b rest]]; reflexivity. Qed.

(** ** Positional arguments *)

Lemma ProcessArgument_plain token parameter p :
  token = "" \/
  (Forall (fun f => ~ is_prefix f token) (long_flags p) /\
   Forall (fun f => ~ is_prefix f token) (short_flags p)) ->
  ProcessArgument token parameter p =
  (Ok false, with_option_map (emplace_back "" token (option_map p)) p).
Proof.
  intros [-> | [Hlong Hshort]]; [reflexivity |].
  unfold ProcessArgument. destruct (empty token) eqn:E; [reflexivity |]. simpl.
  unfold ProcessLongOption, ProcessShortOption. rewrite E.
  unfold bind at 1. unfold bind at 1. unfold gets at 1.
  rewrite FindOptionStart_none by done. simpl.
  unfold bind at 1. unfold bind at 1. unfold gets at 1.
  rewrite FindOptionStart_none by done. reflexivity.
Qed.

Lemma emplace_back_all_lookup tokens m :
  tokens <> [] ->
  foldl (fun m token => emplace_back "" token m) m tokens !! "" =
  Some (default [] (m !! "") ++ tokens).
Proof.
  revert m. induction tokens as [| token tokens IH]; intros m Hne; [done |].
  simpl. destruct tokens as [| token' tokens'].
  - simpl. apply emplace_back_lookup.
  - rewrite IH by done. rewrite emplace_back_lookup. simpl.
    by rewrite <- app_assoc.
Qed.

Lemma emplace_back_all_lookup_ne tokens m key :
  key <> "" ->
  foldl (fun m token => emplace_back "" token m) m tokens !! key = m !! key.
Proof.
  intros Hne. revert m. induction tokens as [| token tokens IH]; intros m; [done |].
  simpl. rewrite IH. by apply emplace_back_lookup_ne.
Qed.

Lemma ParseArguments_loop_plain tokens p :
  Forall (fun token =>
            token = "" \/
            (Forall (fun f => ~ is_prefix f token) (long_flags p) /\
             Forall (fun f => ~ is_prefix f token) (short_flags p))) tokens ->
  ParseArguments_loop tokens p =
  (Ok tt,
   with_option_map (foldl (fun m token => emplace_back "" token m)
                          (option_map p) tokens) p).
Proof.
  revert p. induction tokens as [| token tokens IH]; intros p Hall.
  - by destruct p.
  - inversion Hall as [| ? ? Htoken Hrest]; subst. simpl.
    unfold bind. rewrite ProcessArgument_plain by done.
    rewrite IH; [reflexivity | exact Hrest].
Qed.

(** X4: when no token after the program name begins with a configured
    long or short flag (empty tokens included), the parse succeeds, every
    token is appended in command-line order to the values of the
    positional key, and no other key and no configuration member changes. *)
Theorem ParseArguments_positional_only program tokens p :
  Forall (fun token =>
            token = "" \/
            (Forall (fun f => ~ is_prefix f token) (long_flags p) /\
             Forall (fun f => ~ is_prefix f token) (short_flags p))) tokens ->
  let p' := snd (ParseArguments (program :: tokens) p) in
  fst (ParseArguments (program :: tokens) p) = Ok tt /\
  same_config p p' /\
  (forall key, key <> "" -> option_map p' !! key = option_map p !! key) /\
  (tokens <> [] ->
   option_map p' !! "" = Some (default [] (option_map p !! "") ++ tokens)).
Proof.
  intros Hall.
  rewrite ParseArguments_as_loop; simpl tail.
  rewrite ParseArguments_loop_plain by done. simpl.
  split; [done |]. split; [done |]. split.
  - intros key Hkey. by apply emplace_back_all_lookup_ne.
  - intros Hne. by apply emplace_back_all_lookup.
Qed.

Lemma ParseArguments_positional_only_witness :
  option_map (snd (ParseArguments ["prog"; "file1"; ""; "file2"] new_parser)) !! "" =
  Some ["file1"; ""; "file2"].
Proof.
  refine (proj2 (proj2 (proj2
    (ParseArguments_positional_only "prog" ["file1"; ""; "file2"] new_parser _))) _);
    [| discriminate].
  assert (forall token,
             (forall r, token <> "--" +:+ r) -> (forall r, token <> "-" +:+ r) ->
             token = "" \/
             (Forall (fun f => ~ is_prefix f token) (long_flags new_parser) /\
              Forall (fun f => ~ is_prefix f token) (short_flags new_parser))) as Hplain.
  { intros token Hlong Hshort. right. simpl. split.
    - apply Forall_cons_2; [| apply Forall_nil_2]. intros [r Hr]. by eapply Hlong.
    - apply Forall_cons_2; [| apply Forall_nil_2]. intros [r Hr]. by eapply Hshort. }
  constructor; [by apply Hplain |].
  constructor; [by left |].
  constructor; [by apply Hplain | constructor].
Defined.

(** ** The store step *)

Lemma StoreOption_ok opt parameter p consumed p' :
  StoreOption opt parameter p = (Ok consumed, p') ->
  exists value,
    p' = with_option_map (emplace_back (name opt) value (option_map p)) p /\
    (option_map p !! name opt = None \/ multiple_allowed opt = true) /\
    consumed = parameter_expected opt /\
    (if parameter_expected opt then parameter = Some value else value = "").
Proof.
  unfold StoreOption. intros H.
  destruct (bool_decide (is_Some (option_map p !! name opt))) eqn:Egiven;
    destruct (multiple_allowed opt) eqn:Emulti; simpl in H; try discriminate H.
  - destruct (parameter_expected opt); simpl in H.
    + destruct parameter as [value |]; [| discriminate H].
      injection H as <- <-. exists value. auto.
    + injection H as <- <-. exists "". auto.
  - apply is_Some_None_false in Egiven.
    destruct (parameter_expected opt); simpl in H.
    + destruct parameter as [value |]; [| discriminate H].
      injection H as <- <-. exists value. auto.
    + injection H as <- <-. exists "". auto.
  - apply is_Some_None_false in Egiven.
    destruct (parameter_expected opt); simpl in H.
    + destruct parameter as [value |]; [| discriminate H].
      injection H as <- <-. exists value. auto.
    + injection H as <- <-. exists "". auto.
Qed.

Lemma StoreOption_defined opt parameter p :
  fst (StoreOption opt parameter p) <> Undefined.
Proof.
  unfold StoreOption.
  destruct (_ && _); [done |]. destruct (negb _); [done |].
  by destruct parameter.
Qed.

(** X5: the contract of [StoreOption], case by case.  When the name is
    already given and the descriptor forbids repetition it throws the
    multiple-instances error; otherwise, when a value is expected and none
    is supplied, it throws the missing-argument error; in both cases the
    parser is left as it was.  In every other case it returns: it appends
    exactly one value, the supplied one or the empty string for a
    descriptor that expects none, at the end of the sequence of the
    descriptor's name (so the count grows by one), leaves every other key
    and the configuration alone, and reports the parameter as consumed
    exactly when the descriptor expects a value. *)
Theorem StoreOption_appends_one_or_nothing opt parameter p :
  let blocked := OptionGiven (name opt) p = true /\ multiple_allowed opt = false in
  let recorded := default [] (option_map p !! name opt) in
  (blocked -> StoreOption opt parameter p = (Throw MultipleInstances, p)) /\
  (~ blocked -> parameter_expected opt = true -> parameter = None ->
   StoreOption opt parameter p = (Throw MissingOptionArgument, p)) /\
  (~ blocked ->
   forall value consumed,
     (parameter_expected opt = false /\ value = "" /\ consumed = false) \/
     (parameter_expected opt = true /\ parameter = Some value /\ consumed = true) ->
     exists p',
       StoreOption opt parameter p = (Ok consumed, p') /\
       same_config p p' /\
       option_map p' !! name opt = Some (recorded ++ [value]) /\
       GetOptionStrings (name opt) p' = Ok (recorded ++ [value]) /\
       GetOptionCount (name opt) p' = S (GetOptionCount (name opt) p) /\
       forall key, key <> name opt -> option_map p' !! key = option_map p !! key).
Proof.
  intros blocked recorded.
  assert (blocked ->
          bool_decide (is_Some (option_map p !! name opt))
          && negb (multiple_allowed opt) = true) as Hblocked.
  { intros [Hgiven ->]. unfold OptionGiven in Hgiven. by rewrite Hgiven. }
  assert (~ blocked ->
          bool_decide (is_Some (option_map p !! name opt))
          && negb (multiple_allowed opt) = false) as Hfree.
  { intros Hnot. unfold blocked, OptionGiven in Hnot.
    destruct (bool_decide _); [| done].
    destruct (multiple_allowed opt); [done |]. by destruct Hnot. }
  split; [| split].
  - intros H. unfold StoreOption. by rewrite (Hblocked H).
  - intros H Hexpected ->. unfold StoreOption. by rewrite (Hfree H), Hexpected.
  - intros H value consumed Hcase.
    exists (with_option_map (emplace_back (name opt) value (option_map p)) p).
    split; [| split; [done | split; [| split; [| split]]]].
    + unfold StoreOption. rewrite (Hfree H).
      by destruct Hcase as [(-> & -> & ->) | (-> & -> & ->)].
    + simpl. apply emplace_back_lookup.
    + unfold GetOptionStrings, FindOptionStrings. simpl.
      by rewrite emplace_back_lookup.
    + unfold GetOptionCount. simpl. rewrite emplace_back_lookup.
      destruct (option_map p !! name opt); simpl; rewrite ?length_app; simpl; lia.
    + intros key Hkey. simpl. by rewrite emplace_back_lookup_ne.
Qed.

(** A second [-s] after [-s 1] of the sample specification, and a first
    [-p foo]. *)
Lemma StoreOption_appends_one_or_nothing_witness :
  let p := snd ((install sample_options >> ParseArguments ["prog"; "-s"; "1"])
                  new_parser) in
  StoreOption (mkOption "size" "s" "min-size" false true) (Some "2") p =
    (Throw MultipleInstances, p) /\
  exists p',
    StoreOption (mkOption "pattern" "p" "pattern" true true) (Some "foo") p =
      (Ok true, p') /\
    GetOptionStrings "pattern" p' = Ok ["foo"].
Proof.
  intros p. split.
  - apply (proj1 (StoreOption_appends_one_or_nothing
                    (mkOption "size" "s" "min-size" false true) (Some "2") p)).
    split; [by vm_compute | reflexivity].
  - destruct (proj2 (proj2 (StoreOption_appends_one_or_nothing
                              (mkOption "pattern" "p" "pattern" true true)
                              (Some "foo") p))
                ltac:(intros [_ Hmulti]; discriminate Hmulti)
                "foo" true ltac:(right; repeat split))
      as (p' & Hstore & _ & _ & Hstrings & _).
    exists p'. split; [exact Hstore | exact Hstrings].
Defined.

(** ** Invariants of the result store *)

Lemma names_injective opts a b :
  NoDup (map name opts) -> a ∈ opts -> b ∈ opts -> name a = name b -> a = b.
Proof.
  induction opts as [| o opts IH]; intros Hnodup Ha Hb Hname.
  - by apply elem_of_nil in Ha.
  - simpl in Hnodup. apply NoDup_cons in Hnodup as [Hnotin Hnodup].
    apply elem_of_cons in Ha as [-> | Ha], Hb as [-> | Hb]; [done | | | by apply IH].
    + destruct Hnotin. rewrite Hname. apply list_elem_of_fmap. eauto.
    + destruct Hnotin. rewrite <- Hname. apply list_elem_of_fmap. eauto.
Qed.

Lemma keys_step q q' :
  store_step q q' -> keys_from_specification q -> keys_from_specification q'.
Proof.
  intros Hstep Hkeys key values.
  destruct Hstep as [token | opt parameter consumed q' Hin Hstore].
  - simpl. destruct (decide (key = "")) as [-> | Hne]; [auto |].
    rewrite emplace_back_lookup_ne by done. apply Hkeys.
  - apply StoreOption_ok in Hstore as (value & -> & _). simpl.
    destruct (decide (key = name opt)) as [-> | Hne]; [eauto |].
    rewrite emplace_back_lookup_ne by done. apply Hkeys.
Qed.

(** X6: a parse records only under the positional key and under names of
    descriptors of the installed specification: if every key was of that
    kind before, every key is afterwards, whatever the arguments and
    whether or not the parse throws. *)
Theorem ParseArguments_keys_from_specification arguments p :
  keys_from_specification p ->
  keys_from_specification (snd (ParseArguments arguments p)).
Proof.
  intros H. pose proof (follows_ParseArguments arguments p) as Hf.
  assert (rtc store_step p (snd (ParseArguments arguments p))) as Hsteps.
  { destruct (ParseArguments arguments p) as [[[] | e |] p']; simpl in *; tauto. }
  revert Hsteps H. apply store_steps_invariant. apply keys_step.
Qed.

Lemma ParseArguments_keys_from_specification_witness :
  keys_from_specification
    (snd (ParseArguments sample_arguments (snd (install sample_options new_parser)))).
Proof.
  apply ParseArguments_keys_from_specification.
  intros key values H. vm_compute in H. discriminate H.
Defined.

Lemma single_instances_step q q' :
  names_distinct (options q) ->
  store_step q q' -> single_instances_respected q -> single_instances_respected q'.
Proof.
  intros [Hnames Hnodup] Hstep Hsingle opt Hin Hmulti.
  destruct Hstep as [token | opt' parameter consumed q' Hin' Hstore].
  - simpl in Hin. unfold GetOptionCount. simpl.
    rewrite emplace_back_lookup_ne; [by apply Hsingle |].
    intros Hname. rewrite Forall_forall in Hnames. by apply (Hnames opt).
  - apply StoreOption_ok in Hstore as (value & -> & Hfree & _). simpl in Hin.
    unfold GetOptionCount. simpl.
    destruct (decide (name opt' = name opt)) as [Hname | Hne].
    + assert (opt' = opt) as -> by (by apply (names_injective (options q))).
      rewrite emplace_back_lookup.
      destruct Hfree as [-> | ?]; [simpl; lia | congruence].
    + rewrite emplace_back_lookup_ne by done. by apply Hsingle.
Qed.

Lemma flags_empty_step q q' :
  names_distinct (options q) ->
  store_step q q' -> flags_record_empty q -> flags_record_empty q'.
Proof.
  intros [Hnames Hnodup] Hstep Hflags opt values Hin Hexpected.
  destruct Hstep as [token | opt' parameter consumed q' Hin' Hstore].
  - simpl in Hin. simpl.
    rewrite emplace_back_lookup_ne; [by apply Hflags |].
    intros Hname. rewrite Forall_forall in Hnames. by apply (Hnames opt).
  - apply StoreOption_ok in Hstore as (value & -> & _ & _ & Hvalue).
    simpl in Hin. simpl.
    destruct (decide (name opt' = name opt)) as [Hname | Hne].
    + assert (opt' = opt) as -> by (by apply (names_injective (options q))).
      rewrite emplace_back_lookup. rewrite Hexpected in Hvalue. subst value.
      intros [= <-]. apply Forall_app. split; [| by repeat constructor].
      destruct (option_map q !! name opt) as [old |] eqn:Eold; [| constructor].
      by apply (Hflags opt).
    + rewrite emplace_back_lookup_ne by done. by apply Hflags.
Qed.

Lemma store_steps_invariant_config (I : Parser -> Prop) p p' :
  (forall q q', options q = options p -> store_step q q' -> I q -> I q') ->
  rtc store_step p p' -> I p -> I p'.
Proof.
  intros Hstep Hsteps. revert Hstep.
  induction Hsteps as [| p p1 p2 Hfirst _ IH]; intros Hstep HI; [done |].
  pose proof (store_step_config _ _ Hfirst) as [Hopts _].
  apply IH.
  - intros q q' Hq. apply Hstep. congruence.
  - by apply (Hstep p p1).
Qed.

Lemma ParseArguments_steps arguments p :
  rtc store_step p (snd (ParseArguments arguments p)).
Proof.
  pose proof (follows_ParseArguments arguments p) as Hf.
  destruct (ParseArguments arguments p) as [[[] | e |] p']; simpl in *; tauto.
Qed.

(** X7: with non-empty, pairwise distinct descriptor names (what the
    validator enforces), a parse never records a second value for a
    descriptor that forbids repetition: if no such descriptor had more
    than one value before, none has afterwards. *)
Theorem ParseArguments_single_instances arguments p :
  names_distinct (options p) ->
  single_instances_respected p ->
  single_instances_respected (snd (ParseArguments arguments p)).
Proof.
  intros Hnames.
  apply store_steps_invariant_config; [| apply ParseArguments_steps].
  intros q q' Hq. apply single_instances_step. by rewrite Hq.
Qed.

(** X8: with non-empty, pairwise distinct descriptor names, every value a
    parse records for a descriptor that expects no value is the empty
    string, so the length of its sequence counts its occurrences. *)
Theorem ParseArguments_flags_record_empty arguments p :
  names_distinct (options p) ->
  flags_record_empty p ->
  flags_record_empty (snd (ParseArguments arguments p)).
Proof.
  intros Hnames.
  apply store_steps_invariant_config; [| apply ParseArguments_steps].
  intros q q' Hq. apply flags_empty_step. by rewrite Hq.
Qed.

Lemma sample_names_distinct : names_distinct sample_options.
Proof.
  split.
  - repeat constructor; discriminate.
  - apply (bool_decide_unpack _). by vm_compute.
Qed.

Lemma ParseArguments_single_instances_witness :
  single_instances_respected
    (snd (ParseArguments sample_arguments (snd (install sample_options new_parser)))).
Proof.
  apply ParseArguments_single_instances.
  - exact sample_names_distinct.
  - intros opt _ _. unfold GetOptionCount, install.
    rewrite SetOptions_state. simpl. rewrite lookup_empty. lia.
Defined.

Lemma ParseArguments_flags_record_empty_witness :
  flags_record_empty
    (snd (ParseArguments sample_arguments (snd (install sample_options new_parser)))).
Proof.
  apply ParseArguments_flags_record_empty.
  - exact sample_names_distinct.
  - intros opt values _ _ H. unfold install in H.
    rewrite SetOptions_state in H. simpl in H. by rewrite lookup_empty in H.
Defined.

(** ** Long options written in full *)

Lemma ProcessLongOption_loop_full opt opts parameter p :
  long_option opt <> "" ->
  ProcessLongOption_loop (opt :: opts) (long_option opt) parameter p =
  (let* consumed := StoreOption opt parameter in ret (true, consumed)) p.
Proof.
  intros Hlong. simpl.
  apply empty_false in Hlong as ->. rewrite bind_gets.
  pose proof (long_option_match_app (case_insensitive p) (long_option opt) "" 0) as Hm.
  rewrite append_empty_r in Hm. rewrite Hm. simpl. by rewrite Nat.ltb_irrefl.
Qed.

Lemma FindOptionStart_flag earlier flag later rest :
  flag +:+ rest <> "" ->
  Forall (fun f => ~ is_prefix f (flag +:+ rest)) earlier ->
  FindOptionStart (earlier ++ flag :: later) (flag +:+ rest) = Some rest.
Proof.
  intros Hne Hearlier. apply FindOptionStart_first; [done |].
  eapply Forall_impl; [exact Hearlier |]. intros f Hf r Hr.
  destruct Hf. by exists r.
Qed.

Lemma ProcessLongOption_scan p flag earlier later span parameter :
  long_flags p = earlier ++ flag :: later ->
  Forall (fun f => ~ is_prefix f (flag +:+ span)) earlier ->
  span <> "" ->
  ProcessLongOption (flag +:+ span) parameter p =
  (let* r := ProcessLongOption_loop (options p) span parameter in
   if fst r then ret (true, snd r) else throw InvalidLongOption) p.
Proof.
  intros Hflags Hearlier Hspan.
  assert (flag +:+ span <> "") as Harg.
  { intros H. by apply append_eq_empty in H as [_ ?]. }
  unfold ProcessLongOption.
  apply empty_false in Harg as Harg'. rewrite Harg', bind_gets, Hflags.
  rewrite FindOptionStart_flag by done.
  apply empty_false in Hspan as ->. rewrite bind_gets.
  unfold bind.
  by destruct (ProcessLongOption_loop _ _ _ _) as [[[[] ?] | ? |] ?].
Qed.

Lemma ProcessArgument_long_matched argument parameter p consumed p' :
  ProcessLongOption argument parameter p = (Ok (true, consumed), p') ->
  ProcessArgument argument parameter p = (Ok consumed, p').
Proof.
  intros H. unfold ProcessArgument.
  destruct (empty argument) eqn:E.
  { unfold ProcessLongOption in H. rewrite E in H. discriminate H. }
  simpl. unfold bind. by rewrite H.
Qed.

Lemma ProcessArgument_long_throws argument parameter p e p' :
  ProcessLongOption argument parameter p = (Throw e, p') ->
  ProcessArgument argument parameter p = (Throw e, p').
Proof.
  intros H. unfold ProcessArgument.
  destruct (empty argument) eqn:E.
  { unfold ProcessLongOption in H. rewrite E in H. discriminate H. }
  simpl. unfold bind. by rewrite H.
Qed.

(** X9: a token that is a long flag followed by exactly the long form of
    the descriptor the scan reaches is handed to [StoreOption] together
    with the following token, and the outcome is [StoreOption]'s.  When
    the descriptor expects a value and may be stored, the following token
    is recorded verbatim and skipped, whatever it looks like (also when it
    begins with a flag); when there is no following token the parse fails
    with the missing-argument error. *)
Theorem long_option_takes_following_token
  p flag earlier later before opt after parameter :
  long_flags p = earlier ++ flag :: later ->
  Forall (fun f => ~ is_prefix f (flag +:+ long_option opt)) earlier ->
  options p = before ++ opt :: after ->
  Forall (fun o => passed_over (case_insensitive p) (option_value_separator p)
                               (long_option opt) o = true) before ->
  long_option opt <> "" ->
  ProcessArgument (flag +:+ long_option opt) parameter p =
    StoreOption opt parameter p /\
  (parameter_expected opt = true ->
   option_map p !! name opt = None \/ multiple_allowed opt = true ->
   (forall value following,
       ParseArguments_loop ((flag +:+ long_option opt) :: value :: following) p =
       ParseArguments_loop following
         (with_option_map (emplace_back (name opt) value (option_map p)) p)) /\
   ParseArguments_loop [flag +:+ long_option opt] p =
     (Throw MissingOptionArgument, p)).
Proof.
  intros Hflags Hearlier Hopts Hbefore Hlong.
  assert (forall parameter,
             ProcessArgument (flag +:+ long_option opt) parameter p =
             StoreOption opt parameter p) as Hstore.
  { intros parameter'.
    pose proof (ProcessLongOption_scan p flag earlier later (long_option opt)
                  parameter' Hflags Hearlier Hlong) as Hscan.
    rewrite Hopts in Hscan. unfold bind in Hscan.
    rewrite ProcessLongOption_loop_skip in Hscan by done.
    rewrite ProcessLongOption_loop_full in Hscan by done.
    unfold bind in Hscan.
    pose proof (StoreOption_defined opt parameter' p) as Hdefined.
    destruct (StoreOption opt parameter' p) as [[consumed | e |] p'];
      simpl in Hscan, Hdefined; [| | done].
    - by apply ProcessArgument_long_matched.
    - by apply ProcessArgument_long_throws. }
  split; [apply Hstore |].
  intros Hexpected Hfree.
  assert (bool_decide (is_Some (option_map p !! name opt))
          && negb (multiple_allowed opt) = false) as Hcheck.
  { destruct Hfree as [-> | ->]; [done | apply andb_false_r]. }
  split.
  - intros value following. simpl. unfold bind at 1. rewrite Hstore.
    unfold StoreOption. rewrite Hcheck, Hexpected. reflexivity.
  - simpl. unfold bind at 1. rewrite Hstore.
    unfold StoreOption. rewrite Hcheck, Hexpected. reflexivity.
Qed.

(** The sample specification: [--color] takes the next token even when
    it looks like an option. *)
Lemma long_option_takes_following_token_witness :
  ParseArguments_loop ["--color"; "--all"; "file"] (snd (install sample_options new_parser)) =
  ParseArguments_loop ["file"]
    (with_option_map {[ "color" := ["--all"] ]} (snd (install sample_options new_parser))).
Proof.
  pose proof (long_option_takes_following_token
                (snd (install sample_options new_parser)) "--" [] []
                [mkOption "all" "a" "all" false false;
                 mkOption "pattern" "p" "pattern" true true]
                (mkOption "color" "c" "color" false true)
                [mkOption "size" "s" "min-size" false true] None) as H.
  simpl in H.
  refine (proj1 (proj2 (H _ _ _ _ _) _ _) "--all" ["file"]).
  - reflexivity.
  - constructor.
  - reflexivity.
  - repeat constructor.
  - discriminate.
  - reflexivity.
  - by left.
Defined.

(** X10: a token that begins with a long flag, has text after it, and
    whose text no descriptor claims (each is passed over) is rejected with
    the invalid-long-option error; nothing is recorded, and the token is
    neither tried as a short-option bundle nor kept as a positional
    argument. *)
Theorem unmatched_long_option_is_rejected p flag earlier later span parameter :
  long_flags p = earlier ++ flag :: later ->
  Forall (fun f => ~ is_prefix f (flag +:+ span)) earlier ->
  span <> "" ->
  Forall (fun o => passed_over (case_insensitive p) (option_value_separator p)
                               span o = true) (options p) ->
  ProcessArgument (flag +:+ span) parameter p = (Throw InvalidLongOption, p) /\
  forall program following,
    ParseArguments (program :: (flag +:+ span) :: following) p =
    (Throw InvalidLongOption, p).
Proof.
  intros Hflags Hearlier Hspan Hall.
  assert (forall parameter,
             ProcessArgument (flag +:+ span) parameter p =
             (Throw InvalidLongOption, p)) as H.
  { intros parameter'. apply ProcessArgument_long_throws.
    rewrite (ProcessLongOption_scan p flag earlier later) by done. unfold bind.
    rewrite <- (app_nil_r (options p)).
    by rewrite ProcessLongOption_loop_skip. }
  split; [apply H |]. intros program following.
  rewrite ParseArguments_as_loop. simpl. unfold bind. by rewrite H.
Qed.

Lemma unmatched_long_option_is_rejected_witness :
  ProcessArgument "--colour" (Some "red") (snd (install sample_options new_parser)) =
  (Throw InvalidLongOption, snd (install sample_options new_parser)).
Proof.
  refine (proj1 (unmatched_long_option_is_rejected
                   (snd (install sample_options new_parser)) "--" [] []
                   "colour" (Some "red") _ _ _ _)).
  - reflexivity.
  - constructor.
  - discriminate.
  - by vm_compute; repeat constructor.
Defined.

(** ** Bundles of short options *)

Lemma ProcessShortOption_while_last c parameter consumed opt p :
  List.find (short_matches (case_insensitive p) (String c "")) (options p) = Some opt ->
  ProcessShortOption_while (String c "") parameter consumed p =
  StoreOption opt parameter p.
Proof.
  intros Hfind. simpl. rewrite bind_gets. unfold bind.
  rewrite ProcessShortOption_find_spec, Hfind. simpl. unfold bind.
  pose proof (StoreOption_defined opt parameter p) as Hdefined.
  by destruct (StoreOption opt parameter p) as [[? | ? |] ?].
Qed.

(** X11: how a bundle is read, character by character.  A character no
    descriptor matches ends the bundle with the invalid-short-option
    error and leaves the state as the characters before it made it; the
    last character is stored with the following token as its candidate
    value and the bundle's outcome is [StoreOption]'s; a character that is
    not last, expects no value and may be stored is recorded with the
    empty string and the bundle goes on. *)
Theorem short_bundle_steps p c after parameter consumed :
  (List.find (short_matches (case_insensitive p) (String c "")) (options p) = None ->
   ProcessShortOption_while (String c after) parameter consumed p =
   (Throw InvalidShortOption, p)) /\
  (forall opt,
      List.find (short_matches (case_insensitive p) (String c "")) (options p) = Some opt ->
      ProcessShortOption_while (String c "") parameter consumed p =
        StoreOption opt parameter p /\
      (after <> "" -> parameter_expected opt = false ->
       option_map p !! name opt = None \/ multiple_allowed opt = true ->
       ProcessShortOption_while (String c after) parameter consumed p =
       ProcessShortOption_while after parameter consumed
         (with_option_map (emplace_back (name opt) "" (option_map p)) p))).
Proof.
  split.
  - intros Hfind. simpl. rewrite bind_gets. unfold bind.
    by rewrite ProcessShortOption_find_spec, Hfind.
  - intros opt Hfind. split.
    + by apply ProcessShortOption_while_last.
    + intros Hafter Hexpected Hfree.
      rewrite ProcessShortOption_while_mid with (opt := opt) by done.
      unfold bind, StoreOption. rewrite Hexpected.
      by destruct Hfree as [-> | ->]; rewrite ?andb_false_r.
Qed.

(** The bundle [-ap PATTERN] of the sample specification. *)
Lemma short_bundle_steps_witness :
  let p := snd (install sample_options new_parser) in
  ProcessShortOption_while "ap" (Some "PATTERN") false p =
    ProcessShortOption_while "p" (Some "PATTERN") false
      (with_option_map {[ "all" := [""] ]} p) /\
  ProcessShortOption_while "q" (Some "PATTERN") false p =
    (Throw InvalidShortOption, p).
Proof.
  intros p. split.
  - pose proof (proj2 (proj2 (short_bundle_steps p "a"%char "p" (Some "PATTERN") false)
                         (mkOption "all" "a" "all" false false) eq_refl)) as H.
    apply H; [discriminate | reflexivity | by left].
  - apply (proj1 (short_bundle_steps p "q"%char "" (Some "PATTERN") false)).
    reflexivity.
Defined.

Lemma short_find_same_config p p' user_option :
  same_config p p' ->
  List.find (short_matches (case_insensitive p') user_option) (options p') =
  List.find (short_matches (case_insensitive p) user_option) (options p).
Proof. intros (-> & _ & _ & _ & ->). done. Qed.

(** X12: counting by repetition.  A bundle that repeats [n >= 1] times a
    character whose descriptor expects no value and allows repetition
    succeeds, leaves the following token alone, appends [n] empty strings
    to the descriptor's values (its count grows by [n]) and changes
    nothing else. *)
Theorem repeated_flag_counts p c opt parameter n :
  List.find (short_matches (case_insensitive p) (String c "")) (options p) = Some opt ->
  parameter_expected opt = false ->
  multiple_allowed opt = true ->
  exists p',
    ProcessShortOption_while (repeat_char c (S n)) parameter false p = (Ok false, p') /\
    same_config p p' /\
    option_map p' !! name opt =
      Some (default [] (option_map p !! name opt) ++ replicate (S n) "") /\
    GetOptionCount (name opt) p' = GetOptionCount (name opt) p + S n /\
    forall key, key <> name opt -> option_map p' !! key = option_map p !! key.
Proof.
  intros Hfind Hexpected Hmulti.
  assert (forall candidate q,
             StoreOption opt candidate q =
             (Ok false, with_option_map (emplace_back (name opt) "" (option_map q)) q))
    as Hstore.
  { intros candidate q. unfold StoreOption.
    by rewrite Hexpected, Hmulti, andb_false_r. }
  revert p Hfind. induction n as [| n IH]; intros p Hfind.
  - exists (with_option_map (emplace_back (name opt) "" (option_map p)) p).
    split; [| split; [done | split; [| split]]].
    + simpl repeat_char.
      rewrite ProcessShortOption_while_last with (opt := opt) by done.
      apply Hstore.
    + simpl. apply emplace_back_lookup.
    + unfold GetOptionCount. simpl. rewrite emplace_back_lookup.
      destruct (option_map p !! name opt); simpl; rewrite ?length_app; simpl; lia.
    + intros key Hkey. simpl. by rewrite emplace_back_lookup_ne.
  - set (p1 := with_option_map (emplace_back (name opt) "" (option_map p)) p).
    destruct (IH p1) as (p' & Hrun & Hconfig & Hvalues & Hcount & Hothers).
    { by rewrite (short_find_same_config p p1). }
    exists p'. split; [| split; [| split; [| split]]].
    + change (repeat_char c (S (S n))) with (String c (repeat_char c (S n))).
      rewrite ProcessShortOption_while_mid with (opt := opt) by done.
      unfold bind. rewrite Hstore. exact Hrun.
    + destruct Hconfig as (? & ? & ? & ? & ?). by repeat split.
    + rewrite Hvalues. unfold p1. simpl. rewrite emplace_back_lookup. simpl.
      by rewrite <- app_assoc.
    + rewrite Hcount. unfold p1, GetOptionCount. simpl. rewrite emplace_back_lookup.
      destruct (option_map p !! name opt); simpl; rewrite ?length_app; simpl; lia.
    + intros key Hkey. rewrite Hothers by done. unfold p1. simpl.
      by rewrite emplace_back_lookup_ne.
Qed.

(** [-vvv] of the sample program. *)
Lemma repeated_flag_counts_witness :
  exists p',
    ProcessShortOption_while "vvv" None false (snd (install tar_like_options new_parser)) =
      (Ok false, p') /\
    GetOptionCount "verbose" p' = 3.
Proof.
  destruct (repeated_flag_counts (snd (install tar_like_options new_parser)) "v"%char
              (mkOption "verbose" "v" "" true false) None 2 eq_refl eq_refl eq_refl)
    as (p' & Hrun & _ & _ & Hcount & _).
  exists p'. split; [exact Hrun | exact Hcount].
Defined.

(** ** More on the validator *)

(** X13: [SetOptions] does not roll back.  Whatever its outcome, also
    when it throws, the parser afterwards holds the new options, flags,
    separator and toggle, and an empty result mapping: no option is
    given any more. *)
Theorem SetOptions_installs_even_when_it_throws opts shorts longs separator ci p :
  snd (SetOptions opts shorts longs separator ci p) =
    mkParser opts shorts longs separator ci ∅ /\
  forall option_name,
    OptionGiven option_name (snd (SetOptions opts shorts longs separator ci p)) = false /\
    GetOptionCount option_name (snd (SetOptions opts shorts longs separator ci p)) = 0.
Proof.
  rewrite SetOptions_state. split; [done |]. intros option_name.
  unfold OptionGiven, GetOptionCount. simpl. rewrite lookup_empty. split; [| done].
  apply bool_decide_eq_false. by intros [? ?].
Qed.

Lemma CheckOptionFlags_short_state long_flag shorts p :
  snd (CheckOptionFlags_short long_flag shorts p) = p.
Proof.
  induction shorts as [| s shorts IH]; simpl; [done |].
  by destruct (_ =? _)%string.
Qed.

Lemma CheckOptionFlags_long_state longs shorts p :
  snd (CheckOptionFlags_long longs shorts p) = p.
Proof.
  induction longs as [| l longs IH]; simpl; [done |]. unfold bind.
  pose proof (CheckOptionFlags_short_state l shorts p) as Hshort.
  destruct (CheckOptionFlags_short l shorts p) as [[[] | e |] p']; simpl in *;
    by subst.
Qed.

Lemma CheckOptionFlags_short_outcome long_flag shorts p :
  (fst (CheckOptionFlags_short long_flag shorts p) = Ok tt /\ long_flag ∉ shorts) \/
  (fst (CheckOptionFlags_short long_flag shorts p) = Throw FlagConflict /\
   long_flag ∈ shorts).
Proof.
  induction shorts as [| short_flag shorts IH]; simpl.
  - left. split; [done |]. intros H. by apply elem_of_nil in H.
  - destruct (String.eqb_spec long_flag short_flag) as [-> | Hne]; simpl.
    + right. split; [done | by left].
    + destruct IH as [[-> Hnotin] | [-> Hin]].
      * left. split; [done |]. by apply not_elem_of_cons.
      * right. split; [done | by right].
Qed.

Lemma CheckOptionFlags_long_outcome longs shorts p :
  (fst (CheckOptionFlags_long longs shorts p) = Ok tt /\
   forall flag, flag ∈ longs -> flag ∉ shorts) \/
  (fst (CheckOptionFlags_long longs shorts p) = Throw FlagConflict /\
   exists flag, flag ∈ longs /\ flag ∈ shorts).
Proof.
  pose proof (CheckOptionFlags_long_ok longs shorts p) as Hok.
  induction longs as [| long_flag longs IH]; simpl.
  - left. split; [done |]. intros flag H. by apply elem_of_nil in H.
  - unfold bind.
    pose proof (CheckOptionFlags_short_state long_flag shorts p) as Hsame.
    destruct (CheckOptionFlags_short_outcome long_flag shorts p) as [[H Hnotin] | [H Hin]];
      destruct (CheckOptionFlags_short long_flag shorts p) as [[[] | e |] p'];
      simpl in *; subst; try discriminate H.
    + destruct IH as [[-> Hall] | [-> (flag & ? & ?)]].
      * apply CheckOptionFlags_long_ok.
      * left. split; [done |]. intros flag Hflag.
        apply elem_of_cons in Hflag as [-> | ?]; auto.
      * right. split; [done |]. exists flag. split; [by right | done].
    + right. injection H as ->. split; [done |]. exists long_flag. split; [by left | done].
Qed.

Lemma CheckOptions_loop_outcome opts ids shorts longs p :
  fst (CheckOptions_loop opts ids shorts longs p) = Ok tt \/
  exists e, fst (CheckOptions_loop opts ids shorts longs p) = Throw e /\
            specification_error e /\ e <> FlagConflict.
Proof.
  revert ids shorts longs. induction opts as [| opt opts IH]; intros; simpl; [by left |].
  unfold specification_error.
  destruct (empty (name opt)); [right; eexists; split; [done |]; split; [tauto | done] |].
  destruct (bool_decide _); [right; eexists; split; [done |]; split; [tauto | done] |].
  unfold bind at 1.
  destruct (negb (empty (short_option opt))); simpl.
  - destruct (bool_decide _); simpl;
      [right; eexists; split; [done |]; split; [tauto | done] |].
    destruct (_ <? _)%nat; simpl;
      [right; eexists; split; [done |]; split; [tauto | done] |].
    unfold bind at 1.
    destruct (negb (empty (long_option opt))); simpl; [| apply IH].
    destruct (bool_decide _); simpl;
      [right; eexists; split; [done |]; split; [tauto | done] | apply IH].
  - unfold bind at 1.
    destruct (negb (empty (long_option opt))); simpl; [| apply IH].
    destruct (bool_decide _); simpl;
      [right; eexists; split; [done |]; split; [tauto | done] | apply IH].
Qed.

(** X14: [SetOptions] ends in one of two ways: it returns, or it throws
    one of the six specification errors (never a parse or access error,
    never undefined behaviour).  The flags are checked first: it throws
    the flag-conflict error exactly when some string is both a long and a
    short flag, whatever the options are. *)
Theorem SetOptions_errors opts shorts longs separator ci p :
  (fst (SetOptions opts shorts longs separator ci p) = Ok tt \/
   exists e, fst (SetOptions opts shorts longs separator ci p) = Throw e /\
             specification_error e) /\
  (fst (SetOptions opts shorts longs separator ci p) = Throw FlagConflict <->
   exists flag, flag ∈ longs /\ flag ∈ shorts).
Proof.
  rewrite (SetOptions_outcome _ _ _ _ _ p p). unfold bind.
  pose proof (CheckOptionFlags_long_state longs shorts p) as Hsame.
  destruct (CheckOptionFlags_long_outcome longs shorts p)
    as [[Hflags Hnone] | [Hflags Hsome]];
    destruct (CheckOptionFlags_long longs shorts p) as [[[] | e |] p'];
    simpl in *; subst; try discriminate Hflags.
  - destruct (CheckOptions_loop_outcome opts ∅ ∅ ∅ p) as [H | (e & H & Hspec & Hne)].
    + split; [by left |]. rewrite H. split; [done |].
      intros (flag & Hl & Hs). by destruct (Hnone flag Hl).
    + split; [right; by exists e |]. rewrite H. split.
      * intros [= ->]. done.
      * intros (flag & Hl & Hs). by destruct (Hnone flag Hl).
  - injection Hflags as ->. split.
    + right. exists FlagConflict. split; [done |]. unfold specification_error. tauto.
    + done.
Qed.

(** ** Queries *)

(** X15: the uniform not-found contract.  For a name with no recorded
    occurrence the count is 0 and every retrieval, string or numeric,
    singular or plural, throws the option-not-given error; and each
    retrieval throws that error only for such a name. *)
Theorem retrieval_of_absent_option option_name p :
  (OptionGiven option_name p = false -> GetOptionCount option_name p = 0) /\
  (OptionGiven option_name p = false <->
   GetOptionStrings option_name p = Throw OptionNotGiven) /\
  (OptionGiven option_name p = false <->
   GetOptionString option_name p = Throw OptionNotGiven) /\
  (forall (T : NumericType) min max,
      (OptionGiven option_name p = false <->
       GetOptionValues T option_name min max p = Throw OptionNotGiven) /\
      (OptionGiven option_name p = false <->
       GetOptionValue T option_name min max p = Throw OptionNotGiven)).
Proof.
  unfold OptionGiven, GetOptionCount, GetOptionStrings, GetOptionString,
    GetOptionValue, GetOptionValues, GetOptionValues_generic, FindOptionStrings.
  rewrite is_Some_None_false.
  destruct (option_map p !! option_name) as [values |] eqn:E.
  - split; [done |].
    split; [done |]. split; [by destruct values |].
    intros T min max.
    destruct (GetOptionValues_loop _ min max values []) as [e | [| v vs]];
      split; done.
  - split; [done |]. split; [done |]. split; [done |].
    intros T min max. split; done.
Qed.

(** X16: in a state reachable through the public interface, retrieval of
    a given option is well defined: [GetOptionStrings] returns as many
    strings as [GetOptionCount] says, at least one; a successful plural
    numeric retrieval returns one value per occurrence, and the singular
    retrieval then returns the first of them; no singular retrieval takes
    the front of an empty vector. *)
Theorem retrieval_of_given_option p option_name :
  reachable p ->
  (forall values,
      GetOptionStrings option_name p = Ok values ->
      length values = GetOptionCount option_name p /\ 1 <= length values /\
      OptionGiven option_name p = true) /\
  (forall (T : NumericType) min max,
      GetOptionValue T option_name min max p <> Undefined /\
      forall values,
        GetOptionValues T option_name min max p = Ok values ->
        length values = GetOptionCount option_name p /\
        exists first others,
          values = first :: others /\
          GetOptionValue T option_name min max p = Ok first).
Proof.
  intros Hreachable. pose proof (reachable_nonempty p Hreachable) as Hnonempty.
  split.
  - intros values H.
    unfold GetOptionStrings, FindOptionStrings, GetOptionCount, OptionGiven in *.
    destruct (option_map p !! option_name) as [strs |] eqn:E; [| discriminate H].
    injection H as <-. split; [done |]. split.
    + destruct strs; [by apply Hnonempty in E | simpl; lia].
    + apply bool_decide_eq_true. eauto.
  - intros T min max.
    assert (forall values,
               GetOptionValues T option_name min max p = Ok values ->
               length values = GetOptionCount option_name p /\ values <> []) as Hvalues.
    { intros values H. unfold GetOptionValues in H.
      apply GetOptionValues_generic_ok in H as (strs & Hstrs & HF).
      unfold GetOptionCount. rewrite Hstrs.
      split; [symmetry; by eapply Forall2_length |].
      intros ->. apply Forall2_nil_inv_r in HF as ->. by apply Hnonempty in Hstrs. }
    split.
    + unfold GetOptionValue.
      destruct (GetOptionValues T option_name min max p) as [values | e |] eqn:E.
      * destruct (Hvalues values eq_refl) as [_ Hne]. by destruct values.
      * done.
      * unfold GetOptionValues, GetOptionValues_generic, FindOptionStrings in E.
        destruct (option_map p !! option_name); [| done].
        by destruct (GetOptionValues_loop _ _ _ _ _).
    + intros values H. destruct (Hvalues values H) as [Hlen Hne].
      split; [done |]. unfold GetOptionValue. rewrite H.
      destruct values as [| first others]; [done |]. by exists first, others.
Qed.

Lemma retrieval_of_given_option_witness :
  let p := snd ((install sample_options >> ParseArguments sample_arguments) new_parser) in
  GetOptionValues unsigned_T "size" 0 99 p = Ok [20%Z] /\
  length [20%Z] = GetOptionCount "size" p.
Proof.
  intros p.
  assert (reachable p) as Hr.
  { change (reachable (snd (ParseArguments sample_arguments
                              (snd (install sample_options new_parser))))).
    apply reachable_ParseArguments, reachable_SetOptions.
    by eapply reachable_ctor. }
  assert (GetOptionValues unsigned_T "size" 0 99 p = Ok [20%Z]) as H by (by vm_compute).
  split; [exact H |].
  exact (proj1 (proj2 (proj2 (retrieval_of_given_option p "size" Hr) unsigned_T 0%Z 99%Z)
                  [20%Z] H)).
Defined.

(** ** The converters *)

Lemma digit_value_range c d : digit_value c = Some d -> (0 <= d <= 9)%Z.
Proof.
  unfold digit_value. destruct (_ && _) eqn:E; [| done].
  intros [= <-]. apply andb_true_iff in E as [H1 H2].
  apply Nat.leb_le in H1, H2. lia.
Qed.

Lemma read_digits_nonneg s acc : (0 <= acc)%Z -> (0 <= read_digits s acc)%Z.
Proof.
  revert acc. induction s as [| c s IH]; intros acc Hacc; simpl; [done |].
  destruct (digit_value c) as [d |] eqn:E; [| done].
  apply digit_value_range in E. apply IH. lia.
Qed.

Lemma subject_sequence_nonneg s negative magnitude :
  subject_sequence s = Some (negative, magnitude) -> (0 <= magnitude)%Z.
Proof.
  unfold subject_sequence.
  destruct (match skip_space s with
            | String "-"%char s' => (true, s')
            | String "+"%char s' => (false, s')
            | _ => (false, skip_space s)
            end) as [neg digits].
  destruct digits as [| c digits]; [done |].
  destruct (digit_value c) as [d |] eqn:E; [| done].
  intros [= <- <-]. by apply (read_digits_nonneg (String c digits)).
Qed.

Lemma sto_signed_range bits s v :
  sto_signed bits s = inr v -> (- 2 ^ (bits - 1) <= v <= 2 ^ (bits - 1) - 1)%Z.
Proof.
  unfold sto_signed. destruct (subject_sequence s) as [[negative magnitude] |]; [| done].
  destruct (_ || _) eqn:E; [done |]. intros [= <-].
  apply orb_false_iff in E as [? ?]. lia.
Qed.

Lemma sto_unsigned_range bits s v :
  (0 <= bits)%Z -> sto_unsigned bits s = inr v -> (0 <= v <= 2 ^ bits - 1)%Z.
Proof.
  intros Hbits. unfold sto_unsigned.
  destruct (subject_sequence s) as [[negative magnitude] |] eqn:E; [| done].
  apply subject_sequence_nonneg in E.
  destruct (magnitude >? 2 ^ bits - 1)%Z eqn:Emax; [done |].
  assert (0 < 2 ^ bits)%Z by (by apply Z.pow_pos_nonneg).
  destruct negative; intros [= <-].
  - pose proof (Z.mod_pos_bound (2 ^ bits - magnitude) (2 ^ bits)). lia.
  - lia.
Qed.

Lemma checked_inv sto cast min max s v :
  checked sto cast min max s = inr v ->
  exists i, sto s = inr i /\ (min <= i <= max)%Z /\ v = cast i.
Proof.
  unfold checked. destruct (sto s) as [e | i]; [done |].
  destruct (_ || _) eqn:E; [done |]. intros [= <-].
  apply orb_false_iff in E as [? ?]. exists i. split; [done |]. split; [lia | done].
Qed.

Lemma cast_signed_small bits i :
  (0 < bits)%Z -> (- 2 ^ (bits - 1) <= i <= 2 ^ (bits - 1) - 1)%Z ->
  cast_signed bits i = i.
Proof.
  intros Hbits Hi. unfold cast_signed.
  assert (2 ^ bits = 2 * 2 ^ (bits - 1))%Z as Hpow.
  { rewrite <- Z.pow_succ_r by lia. f_equal. lia. }
  rewrite Z.mod_small by lia. lia.
Qed.

Lemma cast_unsigned_small bits i :
  (0 <= i <= 2 ^ bits - 1)%Z -> cast_unsigned bits i = i.
Proof. intros Hi. unfold cast_unsigned. apply Z.mod_small. lia. Qed.

(** X17: under the default bounds, the full range of the type, the range
    check of the generic retrieval never rejects what the type's
    converter produced: for each of the eight integral types every
    converted value lies in the range of the type, so retrieval with the
    default bounds succeeds exactly when every recorded string
    converts. *)
Theorem default_bounds_reject_nothing (T : NumericType) option_name p :
  T ∈ integral_types ->
  (forall s v, @converter T lowest highest s = inr v -> (lowest <= v <= highest)%Z) /\
  (forall values,
      GetOptionValues T option_name lowest highest p = Ok values <->
      exists options_strings,
        option_map p !! option_name = Some options_strings /\
        Forall2 (fun s v => @converter T lowest highest s = inr v)
                options_strings values).
Proof.
  intros HT.
  assert (forall s v, @converter T lowest highest s = inr v ->
                      (lowest <= v <= highest)%Z) as Hrange.
  { unfold integral_types in HT.
    repeat (apply elem_of_cons in HT as [-> | HT]); [.. | by apply elem_of_nil in HT];
      intros s v H; simpl in *.
    - apply checked_inv in H as (i & _ & Hi & ->).
      rewrite cast_signed_small; [done | done | exact Hi].
    - apply checked_inv in H as (i & _ & Hi & ->).
      rewrite cast_unsigned_small; [done | exact Hi].
    - by apply (sto_signed_range int_bits s).
    - apply checked_inv in H as (i & _ & Hi & ->).
      rewrite cast_unsigned_small; [done | exact Hi].
    - by apply (sto_signed_range long_bits s).
    - by apply (sto_unsigned_range long_bits s).
    - by apply (sto_signed_range long_long_bits s).
    - by apply (sto_unsigned_range long_long_bits s). }
  split; [exact Hrange |].
  intros values. unfold GetOptionValues. rewrite GetOptionValues_generic_ok.
  split; intros (strs & Hstrs & HF); exists strs; (split; [done |]);
    (eapply Forall2_impl; [exact HF |]); intros s v; unfold accepted.
  - tauto.
  - intros H. split; [done | by apply (Hrange s)].
Qed.

Lemma default_bounds_reject_nothing_witness :
  GetOptionValues int_T "size" (@lowest int_T) (@highest int_T)
    (with_option_map {[ "size" := ["-20"] ]} new_parser) = Ok [(-20)%Z].
Proof.
  apply (proj2 (default_bounds_reject_nothing int_T "size"
                  (with_option_map {[ "size" := ["-20"] ]} new_parser)
                  ltac:(unfold integral_types; set_solver))).
  exists ["-20"]. split; [reflexivity |].
  constructor; [reflexivity | constructor].
Defined.

(** X18: the narrow types do not truncate.  For [short] and
    [unsigned short] with bounds inside the range of the type, the
    converter returns exactly the integer [std::stoi] read, and only when
    it lies within the bounds; a text that reads as a larger number is a
    value error, not a wrapped value. *)
Theorem narrow_types_do_not_truncate min max s v :
  ((- 2 ^ 15 <= min)%Z -> (max <= 2 ^ 15 - 1)%Z ->
   (@converter short_T min max s = inr v <->
    stoi s = inr v /\ (min <= v <= max)%Z)) /\
  ((0 <= min)%Z -> (max <= 2 ^ 16 - 1)%Z ->
   (@converter unsigned_short_T min max s = inr v <->
    stoi s = inr v /\ (min <= v <= max)%Z)).
Proof.
  split; intros Hmin Hmax; simpl; unfold checked.
  - destruct (stoi s) as [e | i]; [split; [done | by intros [? _]] |].
    destruct ((i <? min)%Z || (i >? max)%Z) eqn:E.
    + apply orb_true_iff in E. split; [done |]. intros [[= ->] ?]. lia.
    + apply orb_false_iff in E as [? ?].
      rewrite cast_signed_small by (unfold short_bits; lia).
      split; [intros [= ->]; split; [done | lia] | by intros [[= ->] _]].
  - destruct (stoi s) as [e | i]; [split; [done | by intros [? _]] |].
    destruct ((i <? min)%Z || (i >? max)%Z) eqn:E.
    + apply orb_true_iff in E. split; [done |]. intros [[= ->] ?]. lia.
    + apply orb_false_iff in E as [? ?].
      rewrite cast_unsigned_small by (unfold short_bits; lia).
      split; [intros [= ->]; split; [done | lia] | by intros [[= ->] _]].
Qed.

Lemma narrow_types_do_not_truncate_witness :
  @converter short_T (- 2 ^ 15) (2 ^ 15 - 1) "70000" <> inr (70000 - 2 ^ 16)%Z /\
  @converter short_T (- 2 ^ 15) (2 ^ 15 - 1) "-7" = inr (-7)%Z.
Proof.
  split.
  - intros H.
    apply (proj1 (narrow_types_do_not_truncate (- 2 ^ 15) (2 ^ 15 - 1) "70000"
                    (70000 - 2 ^ 16))) in H as [H _]; [| lia | lia].
    vm_compute in H. discriminate H.
  - apply (proj1 (narrow_types_do_not_truncate (- 2 ^ 15) (2 ^ 15 - 1) "-7" (-7)));
      [lia | lia |]. split; [reflexivity | lia].
Defined.

(** ** Letter case *)

Lemma toupper_idempotent c : toupper (toupper c) = toupper c.
Proof. destruct c as [[] [] [] [] [] [] [] []]; reflexivity. Qed.

Lemma Uppercase_idempotent s : Uppercase (Uppercase s) = Uppercase s.
Proof.
  induction s as [| c s IH]; simpl; [done |].
  by rewrite toupper_idempotent, IH.
Qed.

Lemma short_matches_folded u opt :
  short_matches true u opt =
  negb (empty (short_option opt)) &&
  String.eqb (Uppercase (short_option opt)) (Uppercase u).
Proof.
  unfold short_matches. f_equal. simpl.
  destruct (String.eqb_spec (short_option opt) u) as [-> | _]; [| done].
  by rewrite String.eqb_refl.
Qed.

(** X19: [Uppercase] keeps the length of a string and is idempotent; with
    the case-insensitivity toggle set the scan of a bundle character
    selects the same descriptor for a character and for its upper-case
    form, and a descriptor that matches a character with the toggle
    cleared also matches it with the toggle set. *)
Theorem case_folding_of_short_options :
  (forall s, String.length (Uppercase s) = String.length s) /\
  (forall s, Uppercase (Uppercase s) = Uppercase s) /\
  (forall user_option opts,
      List.find (short_matches true (Uppercase user_option)) opts =
      List.find (short_matches true user_option) opts) /\
  (forall user_option opt,
      short_matches false user_option opt = true ->
      short_matches true user_option opt = true).
Proof.
  split; [| split; [exact Uppercase_idempotent | split]].
  - induction s as [| c s IH]; simpl; [done | by rewrite IH].
  - intros u opts. induction opts as [| opt opts IH]; simpl; [done |].
    by rewrite !short_matches_folded, Uppercase_idempotent, IH.
  - intros u opt. unfold short_matches. simpl. rewrite orb_false_r.
    intros H. apply andb_true_iff in H as [-> ->]. done.
Qed.

Lemma case_folding_of_short_options_witness :
  short_matches true "a" (mkOption "all" "a" "all" false false) = true.
Proof.
  apply (proj2 (proj2 (proj2 case_folding_of_short_options))). reflexivity.
Defined.

(** ** The sample program *)

Lemma tar_like_options_valid :
  valid_specification tar_like_options default_short_flags default_long_flags.
Proof.
  apply (SetOptions_validates tar_like_options default_short_flags default_long_flags
           default_option_value_separator default_case_insensitive new_parser).
  by vm_compute.
Qed.

(** X20: [parse_options] of the sample program never fails on its
    specification: whatever state the parser was in, it answers [true]
    exactly when parsing [argv] against the [tar_like] specification,
    installed with the default flags on an empty result mapping, returns
    normally, and it leaves the parser in the state that parse left. *)
Theorem parse_options_fails_only_on_arguments argc argv parser :
  let installed := mkParser tar_like_options default_short_flags default_long_flags
                            default_option_value_separator default_case_insensitive ∅ in
  (fst (parse_options argc argv parser) = true <->
   fst (ParseArguments_argv argc argv installed) = Ok tt) /\
  snd (parse_options argc argv parser) = snd (ParseArguments_argv argc argv installed).
Proof.
  intros installed. unfold parse_options.
  pose proof (proj2 (SetOptions_validates tar_like_options default_short_flags
                       default_long_flags default_option_value_separator
                       default_case_insensitive parser) tar_like_options_valid) as Hok.
  pose proof (SetOptions_state tar_like_options default_short_flags default_long_flags
                default_option_value_separator default_case_insensitive parser) as Hstate.
  fold (install tar_like_options) in Hok, Hstate.
  destruct (install tar_like_options parser) as [r parser1]. simpl in Hok, Hstate.
  subst r parser1. fold installed.
  destruct (ParseArguments_argv argc argv installed) as [[[] | e |] parser2]; simpl;
    split; done.
Qed.

(** ** Instances *)

Lemma SetOptions_errors_witness :
  fst (SetOptions sample_options ["-"; "/"] ["--"; "/"] "=" false new_parser) =
  Throw FlagConflict.
Proof.
  apply (proj2 (SetOptions_errors sample_options ["-"; "/"] ["--"; "/"] "=" false
                  new_parser)).
  exists "/". split; set_solver.
Defined.

Lemma retrieval_of_absent_option_witness :
  let p := snd ((install sample_options >> ParseArguments sample_arguments) new_parser) in
  GetOptionCount "verbose" p = 0 /\
  GetOptionValue unsigned_T "verbose" 0 9 p = Throw OptionNotGiven.
Proof.
  intros p.
  pose proof (retrieval_of_absent_option "verbose" p) as (Hcount & _ & _ & Hnumeric).
  split.
  - apply Hcount. by vm_compute.
  - apply (proj2 (Hnumeric unsigned_T 0%Z 9%Z)). by vm_compute.
Defined.

Lemma parse_options_fails_only_on_arguments_witness :
  fst (parse_options 3 ["tar_like"; "-cz"; "file"] new_parser) = true.
Proof.
  apply (proj1 (parse_options_fails_only_on_arguments 3 ["tar_like"; "-cz"; "file"]
                  new_parser)).
  by vm_compute.
Defined.
